(** * xenakis.py: residuals, sieve parsing, simplification and the Sieve class

    A shallow embedding of [src/xenakis.py].  Python integers are unbounded,
    so they are [Z]; Python's [%] is the floored remainder whose sign follows
    the divisor, which is [Z.modulo].  Residuals are the triples
    [(modulus, shift, is_negative)] the source passes around as tuples.
    Python exceptions are the constructors of [exn]; a function that can
    raise returns a [result]. *)

From Stdlib Require Import ZArith List String Ascii Bool Lia.
From Equations Require Import Equations.
From stdpp Require Import base list strings pretty.
Import ListNotations.

Local Open Scope Z_scope.

(** ** Exceptions and results *)

Inductive exn : Type :=
| ValueError
| TypeError
| IndexError
| ZeroDivisionError
| UnboundLocalError.

Inductive result (A : Type) : Type :=
| Ok (a : A)
| Raise (e : exn).

Arguments Ok {A} a.
Arguments Raise {A} e.

#[global] Instance result_ret : MRet result := fun _ a => Ok a.

#[global] Instance result_fmap : FMap result := fun _ _ f r =>
  match r with
  | Ok a => Ok (f a)
  | Raise e => Raise e
  end.

#[global] Instance result_bind : MBind result := fun _ _ k r =>
  match r with
  | Ok a => k a
  | Raise e => Raise e
  end.

Definition is_raise {A : Type} (r : result A) : Prop :=
  match r with
  | Ok _ => False
  | Raise _ => True
  end.

(** ** Residuals *)

Definition residual : Type := Z * Z * bool.

(** [in_residual(v, res)], lines 100-115. *)
Definition in_residual (v : Z) (res : residual) : bool :=
  let '(mod_, shift, neg) := res in
  if (mod_ =? 1) || (mod_ =? 0) then negb neg
  else
    let truth := (v - shift) mod mod_ =? 0 in
    if neg then negb truth else truth.

(** [for_iter(res, z)], lines 118-127. *)
Definition for_iter (res : residual) (z : list Z) : list Z :=
  filter (fun n => in_residual n res = true) z.

(** [range(a, b)] for [a <= b]. *)
Definition range (a b : Z) : list Z :=
  map (fun i => a + Z.of_nat i) (seq 0 (Z.to_nat (b - a))).

(** ** Simplifying a group of residuals *)

(** The test of the [while] loop of [simplify_group], lines 163-170: the
    chained comparison [a == b == c] is [a == b and b == c]. *)
Definition agree (s m : Z) (g0 g1 : residual) : bool :=
  eqb (in_residual s (m, s, false)) (in_residual s g0)
  && eqb (in_residual s g0) (in_residual s g1).

Definition inspect {A : Type} (a : A) : {b : A | a = b} := exist _ a eq_refl.

(** The [while] loop of lines 163-173 on its variables [s] and [seek] ([r] is
    [(m, s, False)] throughout); it returns their values at the exit.  The
    loop ends because [seek] grows by one per turn and the test has
    [seek <= m]. *)
Equations? seek_loop (g0 g1 : residual) (m s seek : Z) : Z * Z
  by wf (Z.to_nat (m + 1 - seek)) lt :=
  seek_loop g0 g1 m s seek
    with inspect (negb (agree s m g0 g1) && (seek <=? m)) := {
    | exist _ true _ => seek_loop g0 g1 m (s + 1) (seek + 1)
    | exist _ false _ => (s, seek) }.
Proof.
  apply andb_prop in e. destruct e as [_ e]. apply Z.leb_le in e. lia.
Qed.

(** The [len(group) == 2] branch, lines 155-179, up to its [return [r]]: the
    residual [r] it ends with, or the [ValueError] of line 176. *)
Definition combine (g0 g1 : residual) : result residual :=
  let m := fst (fst g0) * fst (fst g1) in
  let s := Z.min (snd (fst g0)) (snd (fst g1)) in
  let '(s', seek) := seek_loop g0 g1 m s 0 in
  if seek =? m then Raise ValueError else Ok (m, s', false).

(** The [while len(group) >= 2] loop of lines 181-185 on a group
    [g0 :: rest]: [simplify_group(group[:2])] is the two-element branch, whose
    one-element result is put back in front of [group[2:]]. *)
Fixpoint simplify_while (g0 : residual) (rest : list residual)
  : result (list residual) :=
  match rest with
  | [] => Ok [g0]
  | g1 :: end_ => r ← combine g0 g1; simplify_while r end_
  end.

(** [simplify_group(group)], lines 142-187.  An empty group passes both
    [if]s and the loop and is returned as it is. *)
Definition simplify_group (group : list residual) : result (list residual) :=
  match group with
  | [] => Ok []
  | [_] => Ok group
  | [g0; g1] => r ← combine g0 g1; Ok [r]
  | g0 :: rest => simplify_while g0 rest
  end.

(** ** Python values and strings *)

(** The values [parse_sieve_str] builds and [Sieve.__init__] walks: integers,
    booleans, tuples and lists.  A residual is the tuple [(m, s, n)]. *)
#[warnings="-register-all"]
Inductive pyval : Type :=
| PInt (z : Z)
| PBool (b : bool)
| PTuple (items : list pyval)
| PList (items : list pyval).

Definition of_residual (r : residual) : pyval :=
  let '(m, s, n) := r in PTuple [PInt m; PInt s; PBool n].

(** Texts are ASCII.  [str.isspace] on ASCII: tab to carriage return, the
    four separators 28-31 and the space. *)
Definition isspace (c : ascii) : bool :=
  let n := nat_of_ascii c in
  ((9 <=? n) && (n <=? 13) || (28 <=? n) && (n <=? 32))%nat.

(** The blanks [int] skips around a literal: tab to carriage return and the
    space, not the separators 28-31. *)
Definition isspace_int (c : ascii) : bool :=
  let n := nat_of_ascii c in
  ((9 <=? n) && (n <=? 13) || (n =? 32))%nat.

Fixpoint lstrip (blank : ascii -> bool) (s : string) : string :=
  match s with
  | String c rest => if blank c then lstrip blank rest else s
  | EmptyString => s
  end.

(** [s.strip()] is [strip isspace s]. *)
Definition strip (blank : ascii -> bool) (s : string) : string :=
  String.rev (lstrip blank (String.rev (lstrip blank s))).

Fixpoint str_filter (f : ascii -> bool) (s : string) : string :=
  match s with
  | String c rest => if f c then String c (str_filter f rest) else str_filter f rest
  | EmptyString => EmptyString
  end.

Fixpoint str_in (c : ascii) (s : string) : bool :=
  match s with
  | String d rest => Ascii.eqb c d || str_in c rest
  | EmptyString => false
  end.

(** [s.split(sep)] for a one-character separator: never an empty list. *)
Fixpoint str_split (sep : ascii) (s : string) : list string :=
  match s with
  | EmptyString => [EmptyString]
  | String c rest =>
      if Ascii.eqb c sep then EmptyString :: str_split sep rest
      else match str_split sep rest with
           | part :: parts => String c part :: parts
           | [] => [String c EmptyString]
           end
  end.

Fixpoint str_join (sep : string) (parts : list string) : string :=
  match parts with
  | [] => EmptyString
  | [part] => part
  | part :: rest => part +:+ sep +:+ str_join sep rest
  end.

Definition digit_of (c : ascii) : option Z :=
  let n := nat_of_ascii c in
  if ((48 <=? n) && (n <=? 57))%nat then Some (Z.of_nat (n - 48)) else None.

(** The digits of an integer literal: decimal digits, single underscores
    allowed between two digits. *)
Fixpoint int_digits (acc : Z) (after_digit : bool) (s : string) : option Z :=
  match s with
  | EmptyString => if after_digit then Some acc else None
  | String c rest =>
      if Ascii.eqb c "_" then
        if after_digit then int_digits acc false rest else None
      else
        match digit_of c with
        | Some d => int_digits (10 * acc + d) true rest
        | None => None
        end
  end.

(** [int(s)] on a string: the blanks around the literal dropped, an optional
    sign, then the digits; anything else is a [ValueError].  The
    interpreter's limit on the number of digits is not modelled. *)
Definition py_int (s : string) : result Z :=
  let s := strip isspace_int s in
  let '(sign, body) :=
    match s with
    | String c rest =>
        if Ascii.eqb c "-" then (-1, rest)
        else if Ascii.eqb c "+" then (1, rest)
        else (1, s)
    | EmptyString => (1, s)
    end in
  match int_digits 0 false body with
  | Some z => Ok (sign * z)
  | None => Raise ValueError
  end.

(** [str(z)], as the f-strings of the source format an integer. *)
Definition py_str (z : Z) : string := pretty z.

(** ** Parsing *)

(** [clean_sieve_str(res)], lines 36-45. *)
Definition clean_sieve_str (res : string) : string :=
  str_filter (fun c => negb (Ascii.eqb c " ") && negb (Ascii.eqb c "010"))
    (strip isspace res).

(** [parse_residual(res)], lines 48-69.  [res[0]] on an empty string is an
    [IndexError]; unpacking the generator into two names raises a
    [ValueError] for any other number of parts, as does a bad literal. *)
Definition parse_residual (res : string) : result pyval :=
  let res := clean_sieve_str res in
  match res with
  | EmptyString => Raise IndexError
  | String c0 tail =>
      let '(neg, res) := if Ascii.eqb c0 "!" then (true, tail) else (false, res) in
      if str_in "@" res then
        match str_split "@" res with
        | [a; b] =>
            modulus ← py_int a;
            shift ← py_int b;
            Ok (PTuple [PInt modulus; PInt shift; PBool neg])
        | _ => Raise ValueError
        end
      else
        modulus ← py_int res;
        Ok (PTuple [PInt modulus; PInt 0; PBool neg])
  end.

(** Lines 89-97 of [parse_sieve_str]: what the function does with a cleaned
    text that has no ['|']. *)
Definition parse_and_str (res : string) : result (list pyval) :=
  if str_in "&" res then mapM parse_residual (str_split "&" res)
  else
    r ← parse_residual res;
    Ok [PList [r]].

(** [parse_sieve_str(res)], lines 72-97.  A part of [res.split('|')] has no
    ['|'], so the recursive call of line 85 on it runs lines 89-97 only;
    [parse_sieve_str_unfold] below is the equation of the source as written.
    [groups += [x]] appends the one value [x]. *)
Definition parse_sieve_str (res : string) : result (list pyval) :=
  let res := clean_sieve_str res in
  if str_in "|" res then
    mapM (fun group => PList <$> parse_and_str (clean_sieve_str group))
         (str_split "|" res)
  else parse_and_str res.

(** ** Operations on Python values *)

(** [len(x)]. *)
Definition py_len (x : pyval) : result nat :=
  match x with
  | PTuple items | PList items => Ok (length items)
  | PInt _ | PBool _ => Raise TypeError
  end.

(** The items a [for] loop over [x] visits. *)
Definition py_iter (x : pyval) : result (list pyval) :=
  match x with
  | PTuple items | PList items => Ok items
  | PInt _ | PBool _ => Raise TypeError
  end.

(** [x[i]] for an index [i >= 0]. *)
Definition getitem (x : pyval) (i : nat) : result pyval :=
  match x with
  | PTuple items | PList items =>
      match items !! i with
      | Some y => Ok y
      | None => Raise IndexError
      end
  | PInt _ | PBool _ => Raise TypeError
  end.

(** A boolean is an integer in arithmetic. *)
Definition as_int (x : pyval) : option Z :=
  match x with
  | PInt z => Some z
  | PBool b => Some (if b then 1 else 0)
  | PTuple _ | PList _ => None
  end.

(** [a % b]. *)
Definition py_mod (a b : pyval) : result pyval :=
  match as_int a, as_int b with
  | Some x, Some y => if y =? 0 then Raise ZeroDivisionError else Ok (PInt (x mod y))
  | _, _ => Raise TypeError
  end.

(** [norm_residual(res)], lines 130-139: the tuple
    [(res[0], res[1] % res[0], res[2])], its parts evaluated left to right. *)
Definition norm_residual (res : pyval) : result pyval :=
  r0 ← getitem res 0;
  r1 ← getitem res 1;
  r1' ← py_mod r1 r0;
  r2 ← getitem res 2;
  Ok (PTuple [r0; r1'; r2]).

(** Reading a value back as a residual triple, and as a group of them. *)
Definition as_residual (x : pyval) : option residual :=
  match x with
  | PTuple [PInt m; PInt s; PBool n] => Some (m, s, n)
  | _ => None
  end.

Definition as_group (x : pyval) : option (list residual) :=
  match x with
  | PList items => mapM as_residual items
  | _ => None
  end.

(** ** The store and the Sieve class *)

(** A Sieve's [_residuals] is a list of group lists.  The outer list is made
    by [__init__] (a parse result, a literal, or the slice copy
    [m._residuals[:]]) and is changed by [__or__] only, on the Sieve it has
    just made: no two Sieves share it, and a Sieve holds it by value.  The
    group lists in it are shared between a Sieve and its copies, since the
    slice copies the outer list only, and [__and__] extends one in place: they
    live in a store, and the outer list holds their locations.  A cell holds
    whatever value stands at that place of the outer list; [Dangling] is the
    reading of a location outside the store, which no Python program sees. *)
Abbreviation loc := nat (only parsing).
Abbreviation store := (list pyval) (only parsing).

(** [_cur_group]: ['last'], the only value [__init__] gives it, or an
    index. *)
Inductive cur_group : Type :=
| Last
| At (i : nat).

Record Sieve : Type := mkSieve {
  _residuals : list loc;
  _cur_group : cur_group
}.

Inductive outcome (A : Type) : Type :=
| Ret (a : A)
| Exc (e : exn)
| Dangling.

Arguments Ret {A} a.
Arguments Exc {A} e.
Arguments Dangling {A}.

Definition M (A : Type) : Type := store -> outcome A * store.

#[global] Instance M_ret : MRet M := fun _ a st => (Ret a, st).

#[global] Instance M_bind : MBind M := fun _ _ k c st =>
  match c st with
  | (Ret a, st') => k a st'
  | (Exc e, st') => (Exc e, st')
  | (Dangling, st') => (Dangling, st')
  end.

Definition lift {A : Type} (r : result A) : M A := fun st =>
  match r with
  | Ok a => (Ret a, st)
  | Raise e => (Exc e, st)
  end.

Definition raise {A : Type} (e : exn) : M A := fun st => (Exc e, st).

Definition alloc (x : pyval) : M loc := fun st => (Ret (length st), st ++ [x]).

Definition read (l : loc) : M pyval := fun st =>
  match st !! l with
  | Some x => (Ret x, st)
  | None => (Dangling, st)
  end.

Definition write (l : loc) (x : pyval) : M unit := fun st =>
  (Ret tt, <[l := x]> st).

(** [group[jdx] = x] on the object at [l]: lists only. *)
Definition setitem (l : loc) (jdx : nat) (x : pyval) : M unit :=
  group ← read l;
  match group with
  | PList items =>
      if (jdx <? length items)%nat then write l (PList (<[jdx := x]> items))
      else raise IndexError
  | _ => raise TypeError
  end.

(** The inner loop of lines 239-240 over the items of the group at [l],
    from index [jdx] on.  The items are those the list had when the loop
    began: an assignment keeps the length of the list and changes the place
    just visited only. *)
Fixpoint norm_items (l : loc) (jdx : nat) (items : list pyval) : M unit :=
  match items with
  | [] => mret tt
  | residual :: rest =>
      r ← lift (norm_residual residual);
      _ ← setitem l jdx r;
      norm_items l (S jdx) rest
  end.

(** The loop of lines 238-240 over the outer list; each group is read when
    its turn comes. *)
Fixpoint norm_groups (groups : list loc) : M unit :=
  match groups with
  | [] => mret tt
  | l :: rest =>
      group ← read l;
      items ← lift (py_iter group);
      _ ← norm_items l 0 items;
      norm_groups rest
  end.

(** What [m] of [Sieve(m, s, n)] can be. *)
Inductive init_arg : Type :=
| MStr (text : string)
| MInt (m : Z)
| MSieve (sv : Sieve)
| MOther.

(** [Sieve.__init__(m, s, n)], lines 197-242.  The format tag is left
    out. *)
Definition Sieve_init (m : init_arg) (s : option Z) (n : option bool) : M Sieve :=
  residuals ←
    match m with
    | MStr text =>
        residuals ← lift (parse_sieve_str text);
        mapM alloc residuals
    | MInt m =>
        l ← alloc (PList [PTuple [PInt m; PInt (default 0 s); PBool (default false n)]]);
        mret [l]
    | MSieve sv => mret (_residuals sv)
    | MOther => raise ValueError
    end;
  _ ← norm_groups residuals;
  mret (mkSieve residuals Last).

(** ['simple'], ['compound'] and ['complex']. *)
Inductive stype_t : Type :=
| Simple
| Compound
| Complex.

(** [Sieve.stype], lines 274-289. *)
Definition stype (self : Sieve) : M stype_t :=
  match _residuals self with
  | _ :: _ :: _ => mret Complex
  | [l] =>
      group ← read l;
      n ← lift (py_len group);
      mret (if (1 <? n)%nat then Compound else Simple)
  | [] => mret Simple
  end.

(** The right operand of [|] and [&]. *)
Inductive operand : Type :=
| OStr (text : string)
| OTuple (m s : Z) (n : bool)
| OSieve (sv : Sieve)
| OOther.

(** Lines 332-339 and 363-370: the operand as a Sieve. *)
Definition operand_sieve (other : operand) : M Sieve :=
  match other with
  | OStr text => Sieve_init (MStr text) None None
  | OTuple m s n => Sieve_init (MInt m) (Some s) (Some n)
  | OSieve sv => mret sv
  | OOther => raise ValueError
  end.

(** [self._residuals[0]] of an outer list. *)
Definition first_group (self : Sieve) : M pyval :=
  match _residuals self with
  | l :: _ => read l
  | [] => raise IndexError
  end.

(** Lines 342-346 and 373-377: the local [push], unbound ([None]) when the
    operand is neither simple nor compound. *)
Definition push_of (other : Sieve) : M (option (list pyval)) :=
  t ← stype other;
  match t with
  | Simple =>
      group ← first_group other;
      r ← lift (getitem group 0);
      mret (Some [r])
  | Compound =>
      group ← first_group other;
      items ← lift (py_iter group);
      push ← lift (mapM (fun residual =>
                r0 ← getitem residual 0;
                r1 ← getitem residual 1;
                r2 ← getitem residual 2;
                Ok (PTuple [r0; r1; r2])) items);
      mret (Some push)
  | Complex => mret None
  end.

(** [Sieve.__or__(self, other)], lines 325-351. *)
Definition Sieve_or (self : Sieve) (other : operand) : M Sieve :=
  other ← operand_sieve other;
  push ← push_of other;
  new ← Sieve_init (MSieve self) None None;
  match push with
  | None => raise UnboundLocalError
  | Some push =>
      l ← alloc (PList push);
      mret (mkSieve (_residuals new ++ [l]) (_cur_group new))
  end.

(** The place [new._residuals[i]] for [i = -1] or [self._cur_group]. *)
Definition group_at (residuals : list loc) (c : cur_group) : M loc :=
  let found :=
    match c with
    | Last => last residuals
    | At i => residuals !! i
    end in
  match found with
  | Some l => mret l
  | None => raise IndexError
  end.

(** [Sieve.__and__(self, other)], lines 353-383.  [x[i] += push] fetches
    [x[i]], then evaluates [push], extends the fetched list in place and
    stores the same object back. *)
Definition Sieve_and (self : Sieve) (other : operand) : M Sieve :=
  other ← operand_sieve other;
  push ← push_of other;
  new ← Sieve_init (MSieve self) None None;
  l ← group_at (_residuals new) (_cur_group self);
  group ← read l;
  match push with
  | None => raise UnboundLocalError
  | Some push =>
      match group with
      | PList items =>
          _ ← write l (PList (items ++ push));
          mret new
      | _ => raise TypeError
      end
  end.

(** The group at [l] read as a list of triples.  A Sieve that [__init__]
    returned holds lists of triples only ([init_str_ok]); any other content
    is reported as a [TypeError]. *)
Definition read_group (l : loc) : M (list residual) :=
  group ← read l;
  match as_group group with
  | Some g => mret g
  | None => raise TypeError
  end.

(** The groups of a Sieve as they stand in the store. *)
Definition groups_of (self : Sieve) : M (list (list residual)) :=
  mapM read_group (_residuals self).

Definition fmt_residual (r : residual) : string :=
  let '(m, s, n) := r in
  (if n then "!" else "") +:+ py_str m +:+ "@" +:+ py_str s.

(** [Sieve.__str__(self)], lines 306-317. *)
Definition Sieve_str (self : Sieve) : M string :=
  groups ← groups_of self;
  mret (str_join " | " (map (fun group => str_join " & " (map fmt_residual group)) groups)).

Fixpoint foldM {A B : Type} (f : A -> B -> M A) (a : A) (bs : list B) : M A :=
  match bs with
  | [] => mret a
  | b :: rest => a' ← f a b; foldM f a' rest
  end.

(** [simplify_group(group)[0]], line 299. *)
Definition first_of (group : list residual) : result residual :=
  simple ← simplify_group group;
  match simple with
  | r :: _ => Ok r
  | [] => Raise IndexError
  end.

(** The f-string [f'{x}@{y}'] of line 298. *)
Definition fmt_pair (x y : Z) : string := py_str x +:+ "@" +:+ py_str y.

(** [Sieve.simplified], lines 291-304: the inner comprehension first, then
    a Sieve for each of its residuals, then the fold with [|]. *)
Definition simplified (self : Sieve) : M Sieve :=
  firsts ← mapM (fun l => group ← read_group l; lift (first_of group))
                (_residuals self);
  sieves ← mapM (fun '(x, y, _) => Sieve_init (MStr (fmt_pair x y)) None None)
                firsts;
  match sieves with
  | [] => raise IndexError
  | simple :: rest => foldM (fun simple sieve => Sieve_or simple (OSieve sieve)) simple rest
  end.

(** Modelled from the spec: membership in a group is the conjunction over
    its residuals and membership in a sieve the disjunction over its groups
    (section 4.2); the source has [in_residual] only. *)
Definition in_group (v : Z) (group : list residual) : bool :=
  forallb (in_residual v) group.

Definition in_sieve (v : Z) (groups : list (list residual)) : bool :=
  existsb (in_group v) groups.

(** ** Well-formed Sieves *)

Definition nonzero (r : residual) : Prop := fst (fst r) <> 0.

(** What [norm_residual] makes of a triple with a modulus other than zero. *)
Definition norm_triple (r : residual) : residual :=
  let '(m, s, n) := r in (m, s mod m, n).

(** A residual as [__init__] leaves it: the modulus is not zero and the
    shift is reduced. *)
Definition normal (r : residual) : Prop :=
  fst (fst r) <> 0 /\ snd (fst r) mod fst (fst r) = snd (fst r).

(** The cell at [l] is the list of the triples [rs]. *)
Definition holds (st : store) (l : loc) (rs : list residual) : Prop :=
  st !! l = Some (PList (map of_residual rs)).

(** The cell at [l] is a list of normalized residual triples, not empty. *)
Definition group_ok (st : store) (l : loc) : Prop :=
  exists rs, holds st l rs /\ rs <> [] /\ Forall normal rs.

(** A Sieve as the constructor and the operators return it: at least one
    group, the current group ['last'], every group a list of normalized
    triples in the store. *)
Definition sieve_ok (st : store) (sv : Sieve) : Prop :=
  _residuals sv <> [] /\ _cur_group sv = Last
  /\ Forall (group_ok st) (_residuals sv).

Definition returns {A : Type} (o : outcome A * store) : Prop :=
  match fst o with
  | Ret _ => True
  | _ => False
  end.

(** ** Notions used in the statements *)

(** A parse result read as a structured sieve: a list of groups, each a
    list of residual triples. *)
Definition as_sieve (groups : list pyval) : option (list (list residual)) :=
  mapM as_group groups.

(** A value that the constructor can take for a group, and one it cannot. *)
Definition cell_shape (x : pyval) : Prop :=
  (exists rs, rs <> [] /\ x = PList (map of_residual rs))
  \/ (exists r, x = PList [PList [of_residual r]]).

Definition isdigit (c : ascii) : bool :=
  let n := nat_of_ascii c in ((48 <=? n) && (n <=? 57))%nat.

Fixpoint str_all (f : ascii -> bool) (s : string) : bool :=
  match s with
  | String c rest => f c && str_all f rest
  | EmptyString => true
  end.

Definition nospace (c : ascii) : bool := negb (isspace c).

(** The characters of a printed integer, and of two of them around ['@']. *)
Definition numchar (c : ascii) : bool := isdigit c || Ascii.eqb c "-".

Definition plain (c : ascii) : bool := numchar c || Ascii.eqb c "@".


(** ** Notions used in the further properties *)

(** The moduli of a group, and their product in the order the loop of
    lines 181-185 multiplies them. *)
Definition moduli (group : list residual) : list Z :=
  map (fun r => fst (fst r)) group.

Definition product (ms : list Z) : Z := fold_left Z.mul ms 1.

(** Every two moduli of the list are coprime. *)
Fixpoint coprime_all (ms : list Z) : Prop :=
  match ms with
  | [] => True
  | m :: rest => Forall (fun m' => Z.gcd m m' = 1) rest /\ coprime_all rest
  end.

(** A residual that is not negated and has a positive modulus. *)
Definition pos_residual (r : residual) : Prop := 0 < fst (fst r) /\ snd r = false.

(** The texts of the model are ASCII texts: every character below 128.
    Beyond ASCII Python has further whitespace characters, which [isspace]
    does not list. *)
Definition ascii_text (s : string) : bool :=
  str_all (fun c => (nat_of_ascii c <? 128)%nat) s.

(** The characters that the comprehension of line 44 keeps. *)
Definition kept (c : ascii) : bool :=
  negb (Ascii.eqb c " ") && negb (Ascii.eqb c "010").








(** ** The format tag *)

(** The values the setter of lines 260-272 accepts. *)
Definition fmt_options : list string := ["set"; "unit"; "bin"; "delta"].

(** The class attribute [_fmt] of line 195. *)
Definition fmt_default : string := "set".

(** The line the setter prints for a value it does not accept. *)
Definition fmt_warning (new : string) : string :=
  "[warn] `" +:+ new +:+ "` is not a possible option for Sieve.fmt; no changes made".

(** [Sieve.fmt = new], lines 260-272, on the attribute [_fmt] of the
    object, which no other method reads or writes: the attribute after the
    assignment and the line printed, if any. *)
Definition fmt_setter (_fmt new : string) : string * option string :=
  if existsb (String.eqb new) fmt_options then (new, None)
  else (_fmt, Some (fmt_warning new)).

(** Lines 214-215 of [__init__]: [if fmt: self.fmt = fmt] on a new object;
    [None] and the empty string are false. *)
Definition fmt_init (fmt : option string) : string * option string :=
  match fmt with
  | Some new =>
      if String.eqb new "" then (fmt_default, None)
      else fmt_setter fmt_default new
  | None => (fmt_default, None)
  end.

(** The attribute after a run of assignments, and the lines printed. *)
Fixpoint fmt_run (_fmt : string) (news : list string) : string * list string :=
  match news with
  | [] => (_fmt, [])
  | new :: rest =>
      let '(_fmt', line) := fmt_setter _fmt new in
      let '(final, lines) := fmt_run _fmt' rest in
      (final, match line with Some w => w :: lines | None => lines end)
  end.

(** * Properties *)

(** ** The model on the examples of the source *)

(** The two calls of line 401, with the values its comment expects. *)
Example parse_residual_line_401 :
  parse_residual "!5@2" = Ok (of_residual (5, 2, true))
  /\ parse_residual "  5" = Ok (of_residual (5, 0, false)).
Proof.
  vm_compute. split; reflexivity.
Qed.

(** The text of lines 387 and 402: every part has an ['&']. *)
Example parse_sieve_str_line_402 :
  parse_sieve_str "4@2 & !1 | 3@2 & 7 & 9@2"
    = Ok [PList [of_residual (4, 2, false); of_residual (1, 0, true)];
          PList [of_residual (3, 2, false); of_residual (7, 0, false);
                 of_residual (9, 2, false)]].
Proof.
  vm_compute. reflexivity.
Qed.

(** The script of lines 388-394 and what it prints. *)
Example main_script :
  fst ((s ← Sieve_init (MInt 1) (Some 7) None;
        s ← Sieve_and s (OStr "3@1");
        s ← Sieve_and s (OTuple 7 3 false);
        t ← simplified s;
        s ← Sieve_or t (OSieve s);
        Sieve_str s) [])
    = Ret "21@10 | 1@0 & 3@1 & 7@3"%string.
Proof.
  vm_compute. reflexivity.
Qed.

Example py_int_literals :
  py_int " -1_2 " = Ok (-12) /\ py_int "+7" = Ok 7 /\ py_int "007" = Ok 7
  /\ py_int "1__2" = Raise ValueError /\ py_int "" = Raise ValueError
  /\ py_int "- 3" = Raise ValueError
  /\ py_int (String "028" "5") = Raise ValueError.
Proof.
  vm_compute. repeat split.
Qed.

(** ** Residual membership *)

Lemma in_residual_universal (v m s : Z) (n : bool) :
  m = 0 \/ m = 1 -> in_residual v (m, s, n) = negb n.
Proof.
  intros [-> | ->]; reflexivity.
Qed.

Lemma in_residual_proper (v m s : Z) (n : bool) :
  m <> 0 -> m <> 1 ->
  in_residual v (m, s, n) = xorb n ((v - s) mod m =? 0).
Proof.
  intros H0 H1. unfold in_residual.
  destruct (Z.eqb_spec m 1); [contradiction|].
  destruct (Z.eqb_spec m 0); [contradiction|].
  simpl. destruct n; reflexivity.
Qed.

(** The trial residual [(m, s, False)] always holds its own shift. *)
Lemma in_residual_trial (s m : Z) : in_residual s (m, s, false) = true.
Proof.
  unfold in_residual. destruct ((m =? 1) || (m =? 0)); [reflexivity|].
  rewrite Z.sub_diag, Zmod_0_l. reflexivity.
Qed.

Lemma agree_both (s m : Z) (g0 g1 : residual) :
  agree s m g0 g1 = in_residual s g0 && in_residual s g1.
Proof.
  unfold agree. rewrite in_residual_trial.
  destruct (in_residual s g0), (in_residual s g1); reflexivity.
Qed.

Lemma in_residual_period (v k : Z) (r : residual) :
  in_residual (v + k * fst (fst r)) r = in_residual v r.
Proof.
  destruct r as [[m s] n]. simpl. unfold in_residual.
  destruct ((m =? 1) || (m =? 0)); [reflexivity|].
  replace (v + k * m - s) with (v - s + k * m) by lia.
  rewrite Z_mod_plus_full. reflexivity.
Qed.

(** ** The search loop *)

Lemma seek_loop_spec (g0 g1 : residual) (m s seek : Z) :
  let '(s', seek') := seek_loop g0 g1 m s seek in
  seek <= seek' /\ s' - s = seek' - seek
  /\ negb (agree s' m g0 g1) && (seek' <=? m) = false
  /\ forall k, seek <= k < seek' ->
       agree (s + (k - seek)) m g0 g1 = false /\ k <= m.
Proof.
  funelim (seek_loop g0 g1 m s seek).
  - clear Heqcall H0. rename e into Htest.
    apply andb_prop in Htest. destruct Htest as [Hno Hseek].
    apply negb_true_iff in Hno. apply Z.leb_le in Hseek.
    destruct (seek_loop g0 g1 m (s + 1) (seek + 1)) as [s' seek'].
    destruct H as (Hle & Hs & Hexit & Hall).
    split; [lia|]. split; [lia|]. split; [assumption|].
    intros k Hk. destruct (Z.eq_dec k seek) as [-> | Hne].
    + rewrite Z.sub_diag, Z.add_0_r. split; assumption.
    + replace (s + (k - seek)) with (s + 1 + (k - (seek + 1))) by lia.
      apply Hall. lia.
  - clear Heqcall H. split; [lia|]. split; [lia|]. split; [assumption|].
    intros k Hk. lia.
Qed.

(** [combine] raises only for a product of moduli that is zero, and then
    exactly when the first candidate already passes the test. *)
Lemma combine_raises_iff (g0 g1 : residual) :
  let m := fst (fst g0) * fst (fst g1) in
  let s0 := Z.min (snd (fst g0)) (snd (fst g1)) in
  is_raise (combine g0 g1) <-> m = 0 /\ agree s0 m g0 g1 = true.
Proof.
  intros m s0. unfold combine. fold m. fold s0.
  pose proof (seek_loop_spec g0 g1 m s0 0) as Hspec.
  destruct (seek_loop g0 g1 m s0 0) as [s' seek'].
  destruct Hspec as (Hle & Hs & Hexit & Hall).
  destruct (Z.eqb_spec seek' m) as [Heq | Hne]; simpl.
  - split; [intros _ | tauto].
    subst seek'. rewrite Z.leb_refl, andb_true_r in Hexit.
    apply negb_false_iff in Hexit.
    destruct (Z.eq_dec m 0) as [Hm | Hm].
    + split; [assumption|]. replace s0 with s' by lia. assumption.
    + exfalso. destruct (Hall 0) as [Hfirst _]; [lia|].
      replace (s0 + (0 - 0)) with s0 in Hfirst by lia.
      rewrite agree_both in Hfirst, Hexit.
      replace s' with (s0 + m) in Hexit by lia.
      unfold m in Hexit at 1.
      rewrite (Z.mul_comm (fst (fst g0))), in_residual_period in Hexit.
      unfold m in Hexit.
      rewrite in_residual_period in Hexit. congruence.
  - split; [tauto|]. intros [Hm Hag]. exfalso.
    destruct (Z.eq_dec seek' 0) as [-> | Hpos]; [lia|].
    destruct (Hall 0) as [Hfirst _]; [lia|].
    replace (s0 + (0 - 0)) with s0 in Hfirst by lia. congruence.
Qed.

(** With a positive product of moduli the error of line 176 is never
    raised. *)
Lemma combine_pos_ok (g0 g1 : residual) :
  0 < fst (fst g0) * fst (fst g1) -> exists r, combine g0 g1 = Ok r.
Proof.
  intros Hm. pose proof (combine_raises_iff g0 g1) as Hiff. simpl in Hiff.
  destruct (combine g0 g1) as [r | e]; [eauto|].
  exfalso. destruct Hiff as [Hiff _]. destruct (Hiff I) as [H0 _]. lia.
Qed.

(** C1 (the code departs from the claim): even AND odd has no member and no
    candidate shift passes the agreement test, yet [simplify_group] raises
    nothing: the loop runs while [seek <= m], leaves with [seek = m + 1], and
    the test [seek == m] of line 175 fails, so the residual [(4, 5, False)]
    is returned. *)
Theorem even_odd_not_raised :
  (forall v, in_residual v (2, 0, false) && in_residual v (2, 1, false) = false)
  /\ (forall s, agree s 4 (2, 0, false) (2, 1, false) = false)
  /\ simplify_group [(2, 0, false); (2, 1, false)] = Ok [(4, 5, false)].
Proof.
  assert (Hunsat : forall v,
    in_residual v (2, 0, false) && in_residual v (2, 1, false) = false).
  { intros v. unfold in_residual. simpl.
    destruct (Z.eqb_spec ((v - 0) mod 2) 0) as [H0 | H0]; [|reflexivity].
    destruct (Z.eqb_spec ((v - 1) mod 2) 0) as [H1 | H1]; [|reflexivity].
    exfalso. rewrite Z.sub_0_r in H0.
    apply Z.mod_divide in H0; [|lia]. apply Z.mod_divide in H1; [|lia].
    destruct H0 as [a Ha]. destruct H1 as [b Hb]. lia. }
  split; [exact Hunsat|]. split.
  - intros s. rewrite agree_both. apply Hunsat.
  - vm_compute. reflexivity.
Qed.

(** C2: for every integer [v] and residual [(m, s, n)], a modulus of 0 or 1
    gives [not n]; any other modulus gives the truth of
    [(v - s) mod m = 0], inverted when [n] holds, which is the congruence
    of [v] and [s] modulo [m]; the remainder is the floored one, never
    negative for a positive modulus. *)
Theorem in_residual_congruence (v m s : Z) (n : bool) :
  (m = 0 \/ m = 1 -> in_residual v (m, s, n) = negb n)
  /\ (m <> 0 -> m <> 1 ->
      in_residual v (m, s, n) = xorb n ((v - s) mod m =? 0)
      /\ ((v - s) mod m = 0 <-> exists k, v = s + k * m)
      /\ (in_residual v (m, s, false) = true <-> exists k, v = s + k * m)
      /\ in_residual v (m, s, true) = negb (in_residual v (m, s, false))
      /\ (0 < m -> 0 <= (v - s) mod m < m)).
Proof.
  split; [apply in_residual_universal|].
  intros H0 H1.
  assert (Hcong : (v - s) mod m = 0 <-> exists k, v = s + k * m).
  { rewrite Z.mod_divide by assumption. split.
    - intros [k Hk]. exists k. lia.
    - intros [k Hk]. exists k. lia. }
  split; [now apply in_residual_proper|]. split; [exact Hcong|].
  rewrite !in_residual_proper by assumption. simpl.
  split; [|split].
  - rewrite Z.eqb_eq. exact Hcong.
  - reflexivity.
  - intros Hpos. apply Z.mod_pos_bound. assumption.
Qed.

(** C9: combining [(3, 0, False)] and [(2, 0, False)] gives one residual,
    not negated, whose members among 0..11 are exactly 0 and 6. *)
Theorem combine_3_2_extension :
  exists r, simplify_group [(3, 0, false); (2, 0, false)] = Ok [r]
    /\ snd r = false
    /\ for_iter r (range 0 12) = [0; 6].
Proof.
  exists (6, 0, false). vm_compute. repeat split.
Qed.

(** ** Parsing *)

Lemma str_in_filter (c : ascii) (f : ascii -> bool) (s : string) :
  str_in c s = false -> str_in c (str_filter f s) = false.
Proof.
  induction s as [| d s IH]; [reflexivity|]. cbn [str_in str_filter].
  intros H. apply orb_false_iff in H. destruct H as [Hd Hs].
  destruct (f d); cbn [str_in]; [rewrite Hd|]; now apply IH.
Qed.

Lemma str_in_lstrip (c : ascii) (blank : ascii -> bool) (s : string) :
  str_in c s = false -> str_in c (lstrip blank s) = false.
Proof.
  induction s as [| d s IH]; [reflexivity|]. cbn [lstrip].
  destruct (blank d); [|tauto].
  cbn [str_in]. intros H. apply orb_false_iff in H. now apply IH.
Qed.

Lemma str_in_rev_app (c : ascii) (s acc : string) :
  str_in c (String.rev_app s acc) = str_in c s || str_in c acc.
Proof.
  revert acc. induction s as [| d s IH]; intros acc; [reflexivity|].
  cbn [String.rev_app str_in]. rewrite IH. cbn [str_in].
  destruct (Ascii.eqb c d), (str_in c s); reflexivity.
Qed.

Lemma str_in_rev (c : ascii) (s : string) : str_in c (String.rev s) = str_in c s.
Proof.
  unfold String.rev. rewrite str_in_rev_app. cbn [str_in]. apply orb_false_r.
Qed.

Lemma str_in_clean (c : ascii) (s : string) :
  str_in c s = false -> str_in c (clean_sieve_str s) = false.
Proof.
  intros H. unfold clean_sieve_str, strip.
  apply str_in_filter. rewrite str_in_rev. apply str_in_lstrip.
  rewrite str_in_rev. now apply str_in_lstrip.
Qed.

(** No part of a split holds the separator. *)
Lemma str_in_split (sep : ascii) (s : string) :
  Forall (fun part => str_in sep part = false) (str_split sep s).
Proof.
  induction s as [| c s IH]; [repeat constructor|].
  cbn [str_split]. destruct (Ascii.eqb_spec c sep) as [-> | Hne].
  - constructor; [reflexivity | assumption].
  - assert (Hc : Ascii.eqb sep c = false).
    { destruct (Ascii.eqb_spec sep c); congruence. }
    destruct (str_split sep s) as [| part parts].
    + repeat constructor. cbn [str_in]. rewrite Hc. reflexivity.
    + inversion IH as [| ? ? Hpart Hparts]; subst.
      constructor; [|assumption]. cbn [str_in]. rewrite Hc. exact Hpart.
Qed.

Lemma mapM_result_ext {A B : Type} (f g : A -> result B) (l : list A) :
  Forall (fun x => f x = g x) l -> mapM f l = mapM g l.
Proof.
  induction 1 as [| x l Hx _ IH]; [reflexivity|].
  cbn [mapM]. rewrite Hx. fold (mapM f l). fold (mapM g l). rewrite IH. reflexivity.
Qed.

(** The equation of [parse_sieve_str] as the source has it, lines 80-97,
    with the recursive call of line 85. *)
Lemma parse_sieve_str_unfold (text : string) :
  parse_sieve_str text =
    let res := clean_sieve_str text in
    if str_in "|" res then
      mapM (fun group => PList <$> parse_sieve_str group) (str_split "|" res)
    else if str_in "&" res then
      mapM parse_residual (str_split "&" res)
    else
      r ← parse_residual res;
      Ok [PList [r]].
Proof.
  unfold parse_sieve_str at 1. cbv zeta.
  destruct (str_in "|" (clean_sieve_str text)); [|reflexivity].
  apply mapM_result_ext.
  eapply Forall_impl; [apply str_in_split|].
  intros group Hgroup. cbv beta in *. unfold parse_sieve_str.
  rewrite (str_in_clean _ _ Hgroup). reflexivity.
Qed.

(** C3 (the code departs from the claim and from its own docstring, "a
    list of a list of tuples"): a text with ['&'] and no ['|'] parses to the
    flat list of its residuals, not to one group inside a list, and the
    parts of a text with ['|'] are appended as values, one level too deep,
    instead of being concatenated.  Only a text with neither separator gives
    a list with one singleton group. *)
Theorem parse_shape_not_grouped :
  parse_sieve_str "3@0&4@0"
    = Ok [of_residual (3, 0, false); of_residual (4, 0, false)]
  /\ as_sieve [of_residual (3, 0, false); of_residual (4, 0, false)] = None
  /\ parse_sieve_str "3@0|4@0"
    = Ok [PList [PList [of_residual (3, 0, false)]];
          PList [PList [of_residual (4, 0, false)]]]
  /\ as_sieve [PList [PList [of_residual (3, 0, false)]];
               PList [PList [of_residual (4, 0, false)]]] = None
  /\ parse_sieve_str "3@0" = Ok [PList [of_residual (3, 0, false)]]
  /\ as_sieve [PList [of_residual (3, 0, false)]] = Some [[(3, 0, false)]].
Proof.
  vm_compute. repeat split.
Qed.

(** ** Construction *)

(** C4 (the code departs from the claim): for the well-formed text
    [3@0&4@0] the normalization loop of [__init__] meets the flat parse
    result, takes the tuple for a group and its modulus for a residual, and
    [norm_residual] raises a [TypeError]; for [3@0|4@0] it meets a list
    where a residual should be and raises an [IndexError].  A text whose
    every ['|'] part has an ['&'] is constructed. *)
Theorem init_str_separator_raises :
  fst (Sieve_init (MStr "3@0&4@0") None None []) = Exc TypeError
  /\ fst (Sieve_init (MStr "3@0|4@0") None None []) = Exc IndexError
  /\ (A ← Sieve_init (MStr "4@6 & !1 | 3@2 & 7") None None; groups_of A) []
     = (Ret [[(4, 2, false); (1, 0, true)]; [(3, 2, false); (7, 0, false)]],
        [PList [of_residual (4, 2, false); of_residual (1, 0, true)];
         PList [of_residual (3, 2, false); of_residual (7, 0, false)]]).
Proof.
  vm_compute. repeat split.
Qed.

(** C5 (the code departs from the claim): the union of [Sieve(3)] and
    [(4, 0, False)] is a Sieve of two groups that prints as [3@0 | 4@0];
    parsing that text gives lists nested one level too deep, which is no
    structured sieve, and constructing a Sieve from it raises an
    [IndexError].  The same defect of [parse_sieve_str] as in C3 and C4. *)
Theorem str_parse_not_roundtrip :
  let s := mkSieve [0; 2]%nat Last in
  let st := [PList [of_residual (3, 0, false)];
             PList [of_residual (4, 0, false)];
             PList [of_residual (4, 0, false)]] in
  (A ← Sieve_init (MInt 3) None None; Sieve_or A (OTuple 4 0 false)) []
    = (Ret s, st)
  /\ groups_of s st = (Ret [[(3, 0, false)]; [(4, 0, false)]], st)
  /\ Sieve_str s st = (Ret "3@0 | 4@0"%string, st)
  /\ parse_sieve_str "3@0 | 4@0"
     = Ok [PList [PList [of_residual (3, 0, false)]];
           PList [PList [of_residual (4, 0, false)]]]
  /\ as_sieve [PList [PList [of_residual (3, 0, false)]];
               PList [PList [of_residual (4, 0, false)]]] = None
  /\ fst (Sieve_init (MStr "3@0 | 4@0") None None st) = Exc IndexError.
Proof.
  vm_compute. repeat split.
Qed.

(** ** Intersection and aliasing *)

(** C6 (the code departs from the claim): [Sieve(self)] copies the outer
    list only ([m._residuals[:]]), so the last group of the copy is the
    very list object of [self], and [+=] extends it in place: after
    [A & (4, 0, False)] the Sieve [A = Sieve(3)] itself holds the group
    [3@0 & 4@0], as the Sieve returned does. *)
Theorem and_mutates_left_operand :
  let A := mkSieve [0%nat] Last in
  let B := mkSieve [0%nat] Last in
  let st0 := [PList [of_residual (3, 0, false)]] in
  let st1 := [PList [of_residual (3, 0, false); of_residual (4, 0, false)];
              PList [of_residual (4, 0, false)]] in
  Sieve_init (MInt 3) None None [] = (Ret A, st0)
  /\ groups_of A st0 = (Ret [[(3, 0, false)]], st0)
  /\ Sieve_and A (OTuple 4 0 false) st0 = (Ret B, st1)
  /\ groups_of B st1 = (Ret [[(3, 0, false); (4, 0, false)]], st1)
  /\ groups_of A st1 = (Ret [[(3, 0, false); (4, 0, false)]], st1).
Proof.
  vm_compute. repeat split.
Qed.

(** ** Simplification *)

(** C7 (the code departs from the claim): [simplified] formats each
    simplified residual as [x@y] and drops its negation flag, so
    [Sieve(3, 1, True).simplified] is [3@1], which holds 1 where the
    sieve does not; and the search of [simplify_group] takes the product of
    the moduli, so [4@0 & 6@0] becomes [24@0], which misses 12. *)
Theorem simplified_not_equal :
  (let A := mkSieve [0%nat] Last in
   let st0 := [PList [of_residual (3, 1, true)]] in
   let R := mkSieve [1%nat] Last in
   let st1 := [PList [of_residual (3, 1, true)];
               PList [of_residual (3, 1, false)]] in
   Sieve_init (MInt 3) (Some 1) (Some true) [] = (Ret A, st0)
   /\ simplified A st0 = (Ret R, st1)
   /\ groups_of A st1 = (Ret [[(3, 1, true)]], st1)
   /\ groups_of R st1 = (Ret [[(3, 1, false)]], st1)
   /\ in_sieve 1 [[(3, 1, true)]] = false
   /\ in_sieve 1 [[(3, 1, false)]] = true)
  /\ (let A := mkSieve [0%nat] Last in
      let st0 := [PList [of_residual (4, 0, false); of_residual (6, 0, false)];
                  PList [of_residual (6, 0, false)]] in
      let R := mkSieve [2%nat] Last in
      let st1 := st0 ++ [PList [of_residual (24, 0, false)]] in
      (A0 ← Sieve_init (MInt 4) None None; Sieve_and A0 (OTuple 6 0 false)) []
        = (Ret A, st0)
      /\ simplified A st0 = (Ret R, st1)
      /\ groups_of A st1 = (Ret [[(4, 0, false); (6, 0, false)]], st1)
      /\ groups_of R st1 = (Ret [[(24, 0, false)]], st1)
      /\ in_sieve 12 [[(4, 0, false); (6, 0, false)]] = true
      /\ in_sieve 12 [[(24, 0, false)]] = false).
Proof.
  vm_compute. repeat split.
Qed.

(** ** The store *)

Lemma bind_run {A B : Type} (c : M A) (k : A -> M B) (st : store) :
  (c ≫= k) st =
    match c st with
    | (Ret a, st') => k a st'
    | (Exc e, st') => (Exc e, st')
    | (Dangling, st') => (Dangling, st')
    end.
Proof.
  unfold mbind, M_bind. destruct (c st) as [[a | e |] st']; reflexivity.
Qed.

Lemma bind_Ret {A B : Type} (c : M A) (k : A -> M B) (st st' : store) (a : A) :
  c st = (Ret a, st') -> (c ≫= k) st = k a st'.
Proof.
  intros H. rewrite bind_run, H. reflexivity.
Qed.

(** One step of a run: the first computation of a bind returns, by [H]. *)
Tactic Notation "step" uconstr(H) := rewrite (bind_Ret _ _ _ _ _ H).
Tactic Notation "step" uconstr(H) "in" hyp(K) :=
  rewrite (bind_Ret _ _ _ _ _ H) in K.

Lemma bind_Exc {A B : Type} (c : M A) (k : A -> M B) (st st' : store) (e : exn) :
  c st = (Exc e, st') -> (c ≫= k) st = (Exc e, st').
Proof.
  intros H. rewrite bind_run, H. reflexivity.
Qed.

Lemma bind_not_returns {A B : Type} (c : M A) (k : A -> M B) (st : store) :
  (forall a st', ~ returns (k a st')) -> ~ returns ((c ≫= k) st).
Proof.
  intros Hk. rewrite bind_run.
  destruct (c st) as [[a | e |] st']; [apply Hk | |]; unfold returns; simpl; tauto.
Qed.

Lemma read_some (st : store) (l : loc) (x : pyval) :
  st !! l = Some x -> read l st = (Ret x, st).
Proof.
  intros H. unfold read. rewrite H. reflexivity.
Qed.

Lemma lookup_alloc (st : store) (x : pyval) : (st ++ [x]) !! length st = Some x.
Proof.
  apply list_lookup_middle. reflexivity.
Qed.

Lemma insert_middle {A : Type} (pre : list A) (x y : A) (rest : list A) :
  <[length pre := x]> (pre ++ y :: rest) = pre ++ x :: rest.
Proof.
  rewrite <- (Nat.add_0_r (length pre)), insert_app_r. reflexivity.
Qed.

Lemma setitem_list (l : loc) (jdx : nat) (x : pyval) (st : store) (items : list pyval) :
  st !! l = Some (PList items) -> (jdx < length items)%nat ->
  setitem l jdx x st = (Ret tt, <[l := PList (<[jdx := x]> items)]> st).
Proof.
  intros H Hlt. unfold setitem.
  step (read_some _ _ _ H).
  apply Nat.ltb_lt in Hlt. rewrite Hlt. reflexivity.
Qed.

(** ** Normalization *)

Lemma norm_residual_triple (m s : Z) (n : bool) :
  norm_residual (of_residual (m, s, n)) =
    if m =? 0 then Raise ZeroDivisionError else Ok (of_residual (m, s mod m, n)).
Proof.
  unfold norm_residual, py_mod. simpl. destruct (m =? 0); reflexivity.
Qed.

Lemma norm_residual_nonzero (r : residual) :
  nonzero r -> norm_residual (of_residual r) = Ok (of_residual (norm_triple r)).
Proof.
  destruct r as [[m s] n]. intros Hm. unfold nonzero in Hm. simpl in Hm.
  rewrite norm_residual_triple.
  destruct (Z.eqb_spec m 0); [contradiction|]. reflexivity.
Qed.

Lemma norm_triple_normal (r : residual) : normal r -> norm_triple r = r.
Proof.
  destruct r as [[m s] n]. intros [_ Hs]. simpl in *. rewrite Hs. reflexivity.
Qed.

Lemma normal_norm_triple (r : residual) : nonzero r -> normal (norm_triple r).
Proof.
  destruct r as [[m s] n]. unfold nonzero, normal. simpl. intros Hm.
  split; [assumption|]. apply Zmod_mod.
Qed.

(** The inner loop on a list of triples with moduli other than zero
    rewrites the cell with every triple normalized. *)
Lemma norm_items_triples (l : loc) (rs : list residual) :
  forall (pre : list pyval) (st : store),
    st !! l = Some (PList (pre ++ map of_residual rs)) ->
    Forall nonzero rs ->
    norm_items l (length pre) (map of_residual rs) st
      = (Ret tt, <[l := PList (pre ++ map of_residual (map norm_triple rs))]> st).
Proof.
  induction rs as [| r rs IH]; intros pre st Hl Hnz.
  - cbn [map norm_items] in *. rewrite app_nil_r in *.
    rewrite list_insert_id by assumption. reflexivity.
  - inversion Hnz as [| ? ? Hr Hrs]; subst.
    change (map of_residual (r :: rs)) with (of_residual r :: map of_residual rs) in *.
    cbn [norm_items].
    rewrite (bind_Ret _ _ st st (of_residual (norm_triple r)))
      by (rewrite norm_residual_nonzero by assumption; reflexivity).
    step (setitem_list l (length pre) _ st _ Hl
         ltac:(rewrite length_app; simpl; lia)).
    rewrite insert_middle.
    pose proof (lookup_lt_Some _ _ _ Hl) as Hlt.
    specialize (IH (pre ++ [of_residual (norm_triple r)])
      (<[l := PList (pre ++ of_residual (norm_triple r) :: map of_residual rs)]> st)).
    rewrite length_app, Nat.add_1_r in IH.
    rewrite IH; [| | assumption].
    + rewrite list_insert_insert_eq, <- app_assoc. reflexivity.
    + rewrite list_lookup_insert_eq by assumption. rewrite <- app_assoc. reflexivity.
Qed.

Lemma norm_group_triples (l : loc) (rs : list residual) (st : store) :
  st !! l = Some (PList (map of_residual rs)) ->
  Forall nonzero rs ->
  norm_groups [l] st
    = (Ret tt, <[l := PList (map of_residual (map norm_triple rs))]> st).
Proof.
  intros Hl Hnz. cbn [norm_groups].
  step (read_some _ _ _ Hl).
  rewrite (bind_Ret _ _ st st (map of_residual rs)) by reflexivity.
  step (norm_items_triples l rs [] st Hl Hnz).
  reflexivity.
Qed.

(** On groups that are normalized already the loop changes nothing. *)
Lemma norm_groups_id (groups : list loc) (st : store) :
  Forall (group_ok st) groups -> norm_groups groups st = (Ret tt, st).
Proof.
  induction groups as [| l groups IH]; intros Hok; [reflexivity|].
  inversion Hok as [| ? ? (rs & Hl & _ & Hrs) Hrest]; subst.
  cbn [norm_groups].
  step (read_some _ _ _ Hl).
  rewrite (bind_Ret _ _ st st (map of_residual rs)) by reflexivity.
  assert (Hnz : Forall nonzero rs).
  { eapply Forall_impl; [exact Hrs|]. intros r [Hr _]. exact Hr. }
  step (norm_items_triples l rs [] st Hl Hnz).
  simpl app.
  assert (Hid : map norm_triple rs = rs).
  { clear -Hrs. induction Hrs as [| r rs Hr _ IHrs]; [reflexivity|].
    simpl. rewrite norm_triple_normal by assumption. now rewrite IHrs. }
  rewrite Hid, list_insert_id by assumption.
  apply IH. assumption.
Qed.

(** Copying a well-formed Sieve leaves the store as it is: the copy holds
    the same group locations. *)
Lemma init_copy (st : store) (sv : Sieve) :
  sieve_ok st sv ->
  Sieve_init (MSieve sv) None None st = (Ret (mkSieve (_residuals sv) Last), st).
Proof.
  intros (_ & _ & Hok). unfold Sieve_init.
  rewrite (bind_Ret _ _ st st (_residuals sv)) by reflexivity.
  step (norm_groups_id _ _ Hok). reflexivity.
Qed.

Lemma init_int_zero (s : option Z) (n : option bool) (st : store) :
  Sieve_init (MInt 0) s n st
    = (Exc ZeroDivisionError,
       st ++ [PList [of_residual (0, default 0 s, default false n)]]).
Proof.
  unfold Sieve_init.
  rewrite (bind_Ret _ _ st
    (st ++ [PList [of_residual (0, default 0 s, default false n)]])
    [length st]) by reflexivity.
  apply bind_Exc. cbn [norm_groups].
  step (read_some _ _ _ (lookup_alloc st _)).
  rewrite (bind_Ret _ _ _ _ [of_residual (0, default 0 s, default false n)])
    by reflexivity.
  apply bind_Exc. cbn [norm_items]. apply bind_Exc.
  rewrite norm_residual_triple. reflexivity.
Qed.

Lemma init_int_nonzero (m : Z) (s : option Z) (n : option bool) (st : store) :
  m <> 0 ->
  Sieve_init (MInt m) s n st
    = (Ret (mkSieve [length st] Last),
       st ++ [PList [of_residual (m, default 0 s mod m, default false n)]]).
Proof.
  intros Hm. unfold Sieve_init.
  rewrite (bind_Ret _ _ st
    (st ++ [PList [of_residual (m, default 0 s, default false n)]])
    [length st]) by reflexivity.
  step (norm_group_triples (length st) [(m, default 0 s, default false n)] _
       (lookup_alloc st _) ltac:(repeat constructor; exact Hm)).
  unfold mret, M_ret. f_equal.
  apply (insert_middle st _ _ []).
Qed.

(** C8 (the code departs from the claim): [norm_residual] has no guard
    for a zero modulus, so [Sieve(0, s, n)] raises a [ZeroDivisionError]
    from [res[1] % res[0]] whatever [s] and [n] are; a modulus other than
    zero has its shift replaced by [shift mod modulus]. *)
Theorem init_zero_modulus_raises (s : option Z) (n : option bool) (st : store) :
  Sieve_init (MInt 0) s n st
    = (Exc ZeroDivisionError,
       st ++ [PList [of_residual (0, default 0 s, default false n)]])
  /\ forall m, m <> 0 ->
     Sieve_init (MInt m) s n st
       = (Ret (mkSieve [length st] Last),
          st ++ [PList [of_residual (m, default 0 s mod m, default false n)]]).
Proof.
  split; [apply init_int_zero|]. intros m Hm. now apply init_int_nonzero.
Qed.

(** ** Operands with several groups *)

Lemma stype_complex (sv : Sieve) (st : store) :
  (1 < length (_residuals sv))%nat -> stype sv st = (Ret Complex, st).
Proof.
  intros Hlen. unfold stype.
  destruct (_residuals sv) as [| l [| l' groups]]; simpl in Hlen; try lia.
  reflexivity.
Qed.

Lemma push_of_complex (sv : Sieve) (st : store) :
  (1 < length (_residuals sv))%nat -> push_of sv st = (Ret None, st).
Proof.
  intros Hlen. unfold push_of.
  step (stype_complex sv st Hlen). reflexivity.
Qed.

Lemma group_at_last (st : store) (sv : Sieve) :
  sieve_ok st sv ->
  exists l, group_at (_residuals sv) (_cur_group sv) st = (Ret l, st)
    /\ last (_residuals sv) = Some l /\ group_ok st l.
Proof.
  intros (Hne & Hcur & Hok). rewrite Hcur. unfold group_at.
  destruct (proj2 (last_is_Some _) Hne) as [l Hl]. rewrite Hl.
  exists l. split; [reflexivity|]. split; [reflexivity|].
  apply last_Some in Hl. destruct Hl as [front Hfront]. rewrite Hfront in Hok.
  apply Forall_app in Hok. destruct Hok as [_ Hok].
  now inversion Hok.
Qed.

Lemma Sieve_or_operand (A B : Sieve) (other : operand) (st st1 : store) :
  operand_sieve other st = (Ret B, st1) ->
  Sieve_or A other st = Sieve_or A (OSieve B) st1.
Proof.
  intros H. unfold Sieve_or.
  step H.
  rewrite (bind_Ret _ _ st1 st1 B) by reflexivity. reflexivity.
Qed.

Lemma Sieve_and_operand (A B : Sieve) (other : operand) (st st1 : store) :
  operand_sieve other st = (Ret B, st1) ->
  Sieve_and A other st = Sieve_and A (OSieve B) st1.
Proof.
  intros H. unfold Sieve_and.
  step H.
  rewrite (bind_Ret _ _ st1 st1 B) by reflexivity. reflexivity.
Qed.

(** C10: when the right operand, a Sieve or the Sieve made of a text or a
    triple, has more than one group, neither [A | B] nor [A & B] returns a
    Sieve: [push] is bound for a simple and for a compound operand only, and
    its use raises.  For a well-formed [A] the exception is the
    [UnboundLocalError], and the store is as the operand left it. *)
Theorem complex_operand_raises (st st1 : store) (A B : Sieve) (other : operand) :
  operand_sieve other st = (Ret B, st1) ->
  (1 < length (_residuals B))%nat ->
  (~ returns (Sieve_or A other st) /\ ~ returns (Sieve_and A other st))
  /\ (sieve_ok st1 A ->
      Sieve_or A other st = (Exc UnboundLocalError, st1)
      /\ Sieve_and A other st = (Exc UnboundLocalError, st1)).
Proof.
  intros Hother Hlen.
  rewrite (Sieve_or_operand A B other st st1 Hother).
  rewrite (Sieve_and_operand A B other st st1 Hother).
  assert (Hor : forall k : Sieve -> option (list pyval) -> M Sieve,
    (other ← operand_sieve (OSieve B); push ← push_of other; k other push) st1
      = k B None st1).
  { intros k. rewrite (bind_Ret _ _ st1 st1 B) by reflexivity.
    step (push_of_complex B st1 Hlen). reflexivity. }
  split; [split|].
  - unfold Sieve_or. rewrite Hor. apply bind_not_returns.
    intros new st2. unfold returns. simpl. tauto.
  - unfold Sieve_and. rewrite Hor. apply bind_not_returns.
    intros new st2. apply bind_not_returns.
    intros l st3. apply bind_not_returns.
    intros group st4. unfold returns. simpl. tauto.
  - intros Hok. split.
    + unfold Sieve_or. rewrite Hor.
      step (init_copy st1 A Hok). reflexivity.
    + unfold Sieve_and. rewrite Hor.
      step (init_copy st1 A Hok).
      destruct (group_at_last st1 A Hok) as (l & Hat & _ & rs & Hl & _ & _).
      cbn [_residuals].
      step Hat.
      step (read_some _ _ _ Hl). reflexivity.
Qed.

Lemma complex_operand_raises_witness :
  let st := [PList [of_residual (3, 0, false)];
             PList [of_residual (4, 0, false)];
             PList [of_residual (5, 1, false)]] in
  let A := mkSieve [0%nat] Last in
  let B := mkSieve [1%nat; 2%nat] Last in
  Sieve_or A (OSieve B) st = (Exc UnboundLocalError, st)
  /\ Sieve_and A (OSieve B) st = (Exc UnboundLocalError, st).
Proof.
  intros st A B.
  apply (complex_operand_raises st st A B (OSieve B));
    [reflexivity | simpl; lia |].
  split; [discriminate|]. split; [reflexivity|].
  constructor; [|constructor].
  exists [(3, 0, false)]. split; [reflexivity|]. split; [discriminate|].
  constructor; [|constructor]. split; [simpl; lia | reflexivity].
Defined.

(** ** The operators on well-formed Sieves *)

Lemma holds_alloc (st : store) (x : pyval) (l : loc) (rs : list residual) :
  holds st l rs -> holds (st ++ [x]) l rs.
Proof.
  unfold holds. apply lookup_app_l_Some.
Qed.

Lemma group_ok_alloc (st : store) (x : pyval) (l : loc) :
  group_ok st l -> group_ok (st ++ [x]) l.
Proof.
  intros (rs & Hl & Hne & Hrs). exists rs. eauto using holds_alloc.
Qed.

Lemma sieve_ok_alloc (st : store) (x : pyval) (sv : Sieve) :
  sieve_ok st sv -> sieve_ok (st ++ [x]) sv.
Proof.
  intros (Hne & Hcur & Hok). repeat split; try assumption.
  eapply Forall_impl; [exact Hok|]. intros l. apply group_ok_alloc.
Qed.

(** The comprehension of lines 345-346 and 376-377 rebuilds each triple. *)
Lemma rebuild_triples (rs : list residual) :
  mapM (fun residual : pyval =>
          r0 ← getitem residual 0;
          r1 ← getitem residual 1;
          r2 ← getitem residual 2;
          Ok (PTuple [r0; r1; r2])) (map of_residual rs)
    = Ok (map of_residual rs).
Proof.
  induction rs as [| [[m s] n] rs IH]; [reflexivity|].
  cbn [map mapM]. rewrite IH. reflexivity.
Qed.

(** [push] for an operand with one group: the residuals of that group. *)
Lemma push_of_single (st : store) (B : Sieve) (l : loc) (rs : list residual) :
  _residuals B = [l] -> holds st l rs -> rs <> [] ->
  push_of B st = (Ret (Some (map of_residual rs)), st).
Proof.
  intros HB Hl Hne. unfold push_of, stype, first_group. rewrite HB.
  rewrite (bind_Ret _ _ st st (if (1 <? length rs)%nat then Compound else Simple)).
  2: { step (read_some _ _ _ Hl).
       rewrite (bind_Ret _ _ st st (length rs))
         by (cbn [py_len lift]; rewrite length_map; reflexivity).
       reflexivity. }
  destruct rs as [| r [| r' rs]]; [contradiction| |].
  - cbn [length Nat.ltb Nat.leb].
    step (read_some _ _ _ Hl).
    rewrite (bind_Ret _ _ st st (of_residual r)) by reflexivity.
    reflexivity.
  - cbn [length Nat.ltb Nat.leb].
    step (read_some _ _ _ Hl).
    rewrite (bind_Ret _ _ st st (map of_residual (r :: r' :: rs))) by reflexivity.
    rewrite (bind_Ret _ _ st st (map of_residual (r :: r' :: rs)))
      by (unfold lift; rewrite rebuild_triples; reflexivity).
    reflexivity.
Qed.

(** [A | B] for a well-formed [A] and an operand of one group: a Sieve on
    the groups of [A] and one new list, the residuals of [B]. *)
Lemma Sieve_or_single (st : store) (A B : Sieve) (l : loc) (rs : list residual) :
  sieve_ok st A -> _residuals B = [l] -> holds st l rs -> rs <> [] ->
  Sieve_or A (OSieve B) st
    = (Ret (mkSieve (_residuals A ++ [length st]) Last),
       st ++ [PList (map of_residual rs)]).
Proof.
  intros HA HB Hl Hne. unfold Sieve_or.
  rewrite (bind_Ret _ _ st st B) by reflexivity.
  step (push_of_single st B l rs HB Hl Hne).
  step (init_copy st A HA).
  reflexivity.
Qed.

(** [A & B] for a well-formed [A] and an operand of one group: the Sieve
    returned holds the group locations of [A], and the list at the last of
    them has grown by the residuals of [B]. *)
Lemma Sieve_and_single (st : store) (A B : Sieve) (la lb : loc)
    (ra rb : list residual) :
  sieve_ok st A -> last (_residuals A) = Some la -> holds st la ra ->
  _residuals B = [lb] -> holds st lb rb -> rb <> [] ->
  Sieve_and A (OSieve B) st
    = (Ret (mkSieve (_residuals A) Last),
       <[la := PList (map of_residual (ra ++ rb))]> st).
Proof.
  intros HA Hlast Hla HB Hlb Hne. unfold Sieve_and.
  rewrite (bind_Ret _ _ st st B) by reflexivity.
  step (push_of_single st B lb rb HB Hlb Hne).
  step (init_copy st A HA).
  destruct HA as (_ & Hcur & _). rewrite Hcur. cbn [_residuals].
  unfold group_at. rewrite Hlast.
  rewrite (bind_Ret _ _ st st la) by reflexivity.
  step (read_some _ _ _ Hla).
  rewrite (bind_Ret _ _ st (<[la := PList (map of_residual ra ++ map of_residual rb)]> st) tt)
    by reflexivity.
  rewrite map_app. reflexivity.
Qed.

(** The left operand of [&] is changed: for every well-formed [A] and
    triple with a modulus other than zero, after [A & (m, s, n)] the last
    group of [A] itself holds the new residual. *)
Lemma and_tuple_extends_left (st : store) (A : Sieve) (m s : Z) (n : bool)
    (la : loc) (ra : list residual) :
  sieve_ok st A -> last (_residuals A) = Some la -> holds st la ra -> m <> 0 ->
  exists st',
    Sieve_and A (OTuple m s n) st = (Ret (mkSieve (_residuals A) Last), st')
    /\ holds st' la (ra ++ [(m, s mod m, n)]).
Proof.
  intros HA Hlast Hla Hm.
  pose proof (init_int_nonzero m (Some s) (Some n) st Hm) as Hinit.
  cbn [default] in Hinit.
  set (st1 := st ++ [PList [of_residual (m, s mod m, n)]]) in *.
  rewrite (Sieve_and_operand A _ (OTuple m s n) st st1 Hinit).
  rewrite (Sieve_and_single st1 A _ la (length st) ra [(m, s mod m, n)]).
  - eexists. split; [reflexivity|]. unfold holds.
    apply list_lookup_insert_eq.
    unfold st1. rewrite length_app.
    apply lookup_lt_Some in Hla. lia.
  - now apply sieve_ok_alloc.
  - assumption.
  - now apply holds_alloc.
  - reflexivity.
  - apply lookup_alloc.
  - discriminate.
Qed.

(** ** What the parser returns and what the constructor accepts *)

Lemma parse_residual_shape (text : string) (x : pyval) :
  parse_residual text = Ok x -> exists r, x = of_residual r.
Proof.
  unfold parse_residual.
  destruct (clean_sieve_str text) as [| c0 tail]; [discriminate|].
  destruct (if Ascii.eqb c0 "!" then (true, tail) else (false, String c0 tail))
    as [neg res].
  destruct (str_in "@" res).
  - destruct (str_split "@" res) as [| a [| b [| c parts]]]; try discriminate.
    destruct (py_int a) as [m | e]; [|discriminate].
    destruct (py_int b) as [s | e]; [|discriminate].
    intros [= <-]. exists (m, s, neg). reflexivity.
  - destruct (py_int res) as [m | e]; [|discriminate].
    intros [= <-]. exists (m, 0, neg). reflexivity.
Qed.

Lemma mapM_parse_residual_shape (parts : list string) (items : list pyval) :
  mapM parse_residual parts = Ok items ->
  exists rs, items = map of_residual rs /\ length rs = length parts.
Proof.
  revert items. induction parts as [| part parts IH]; intros items.
  - intros [= <-]. exists []. split; reflexivity.
  - cbn [mapM]. fold (mapM parse_residual parts).
    destruct (parse_residual part) as [x | e] eqn:Hx; [|discriminate].
    destruct (mapM parse_residual parts) as [xs | e]; [|discriminate].
    intros [= <-]. destruct (parse_residual_shape _ _ Hx) as [r ->].
    destruct (IH xs eq_refl) as (rs & -> & Hlen).
    exists (r :: rs). split; [reflexivity|]. simpl. now rewrite Hlen.
Qed.

Lemma str_split_not_nil (sep : ascii) (s : string) : str_split sep s <> [].
Proof.
  destruct s as [| c s]; [discriminate|]. cbn [str_split].
  destruct (Ascii.eqb c sep); [discriminate|].
  destruct (str_split sep s); discriminate.
Qed.

(** The two shapes lines 89-97 return: the residuals themselves, or one
    list holding one residual. *)
Lemma parse_and_str_shape (res : string) (items : list pyval) :
  parse_and_str res = Ok items ->
  (exists rs, rs <> [] /\ items = map of_residual rs)
  \/ (exists r, items = [PList [of_residual r]]).
Proof.
  unfold parse_and_str. destruct (str_in "&" res).
  - intros H. left. destruct (mapM_parse_residual_shape _ _ H) as (rs & -> & Hlen).
    exists rs. split; [|reflexivity]. intros ->.
    apply (str_split_not_nil "&" res). now apply length_zero_iff_nil.
  - destruct (parse_residual res) as [x | e] eqn:Hx; [|discriminate].
    intros [= <-]. right. destruct (parse_residual_shape _ _ Hx) as [r ->]. eauto.
Qed.

Lemma parse_sieve_str_shape (text : string) (items : list pyval) :
  parse_sieve_str text = Ok items ->
  (exists r rs, items = map of_residual (r :: rs))
  \/ (items <> [] /\ Forall cell_shape items).
Proof.
  unfold parse_sieve_str. cbv zeta.
  destruct (str_in "|" (clean_sieve_str text)).
  - intros H. right.
    pose proof (str_split_not_nil "|" (clean_sieve_str text)) as Hne.
    revert items H Hne.
    induction (str_split "|" (clean_sieve_str text)) as [| part parts IH];
      intros items H Hne; [contradiction|].
    cbn [mapM] in H.
    destruct (parse_and_str (clean_sieve_str part)) as [x | e] eqn:Hx;
      [|discriminate].
    cbn in H.
    match type of H with
    | context [mapM ?f parts] => destruct (mapM f parts) as [xs | e] eqn:Hxs
    end; [|discriminate].
    injection H as <-. split; [discriminate|]. constructor.
    + destruct (parse_and_str_shape _ _ Hx) as [(rs & Hrs & ->) | (r & ->)].
      * left. eauto.
      * right. eauto.
    + destruct parts as [| part' parts'].
      * injection Hxs as <-. constructor.
      * apply (IH xs eq_refl). discriminate.
  - intros H. destruct (parse_and_str_shape _ _ H) as [(rs & Hrs & ->) | (r & ->)].
    + left. destruct rs as [| r rs]; [contradiction|]. eauto.
    + right. split; [discriminate|]. constructor; [|constructor].
      left. exists [r]. split; [discriminate | reflexivity].
Qed.

Lemma returns_Ret {A : Type} (c : outcome A * store) :
  returns c -> exists a st, c = (Ret a, st).
Proof.
  destruct c as [[a | e |] st]; unfold returns; simpl; try tauto. eauto.
Qed.

Lemma bind_returns {A B : Type} (c : M A) (k : A -> M B) (st : store) :
  returns ((c ≫= k) st) ->
  exists a st', c st = (Ret a, st') /\ returns (k a st').
Proof.
  rewrite bind_run. destruct (c st) as [[a | e |] st'];
    unfold returns; simpl; try tauto. eauto.
Qed.

Lemma bind_returns' {B : Type} (c : M unit) (b : B) (st st' : store) (r : B) :
  (c ≫= (fun _ => mret b)) st = (Ret r, st') ->
  exists st1, c st = (Ret tt, st1) /\ (Ret b, st1) = (Ret r, st').
Proof.
  rewrite bind_run. destruct (c st) as [[[] | e |] st1]; try discriminate.
  intros H. exists st1. split; [reflexivity | exact H].
Qed.

(** The inner loop returns on triples only if no modulus is zero. *)
Lemma norm_items_returns (l : loc) (rs : list residual) :
  forall (pre : list pyval) (st : store),
    st !! l = Some (PList (pre ++ map of_residual rs)) ->
    returns (norm_items l (length pre) (map of_residual rs) st) ->
    Forall nonzero rs.
Proof.
  induction rs as [| r rs IH]; intros pre st Hl Hret; [constructor|].
  change (map of_residual (r :: rs)) with (of_residual r :: map of_residual rs) in *.
  cbn [norm_items] in Hret.
  apply bind_returns in Hret. destruct Hret as (x & st1 & Hnorm & Hret).
  assert (Hr : nonzero r).
  { destruct r as [[m s] n]. unfold nonzero. simpl. intros ->.
    unfold lift in Hnorm. rewrite norm_residual_triple in Hnorm. discriminate. }
  constructor; [exact Hr|].
  unfold lift in Hnorm. rewrite norm_residual_nonzero in Hnorm by assumption.
  injection Hnorm as <- <-.
  step (setitem_list l (length pre) _ st _ Hl
       ltac:(rewrite length_app; simpl; lia)) in Hret.
  rewrite insert_middle in Hret.
  pose proof (lookup_lt_Some _ _ _ Hl) as Hlt.
  apply (IH (pre ++ [of_residual (norm_triple r)])
    (<[l := PList (pre ++ of_residual (norm_triple r) :: map of_residual rs)]> st)).
  - rewrite list_lookup_insert_eq by assumption. rewrite <- app_assoc. reflexivity.
  - rewrite length_app, Nat.add_1_r. exact Hret.
Qed.

Lemma alloc_all (items : list pyval) :
  forall st : store,
    mapM alloc items st = (Ret (seq (length st) (length items)), st ++ items).
Proof.
  induction items as [| x items IH]; intros st.
  - cbn. rewrite app_nil_r. reflexivity.
  - cbn [mapM]. fold (mapM alloc items).
    rewrite (bind_Ret _ _ st (st ++ [x]) (length st)) by reflexivity.
    step (IH (st ++ [x])).
    rewrite length_app, Nat.add_1_r, <- app_assoc. reflexivity.
Qed.

(** The outer loop over freshly stored parse results: it returns only when
    every cell is a list of triples with moduli other than zero, and then
    every triple has been normalized. *)
Lemma norm_groups_cells (items : list pyval) :
  forall st0 st' : store,
    Forall cell_shape items ->
    norm_groups (seq (length st0) (length items)) (st0 ++ items) = (Ret tt, st') ->
    exists groups : list (list residual),
      items = map (fun rs => PList (map of_residual rs)) groups
      /\ Forall (fun rs => rs <> [] /\ Forall nonzero rs) groups
      /\ st' = st0 ++ map (fun rs => PList (map of_residual (map norm_triple rs))) groups.
Proof.
  induction items as [| x items IH]; intros st0 st' Hshape Hrun.
  - cbn in Hrun. injection Hrun as <-. exists []. repeat split. constructor.
  - inversion Hshape as [| ? ? Hx Hitems]; subst.
    cbn [length seq norm_groups] in Hrun.
    assert (Hl : (st0 ++ x :: items) !! length st0 = Some x)
      by (now apply list_lookup_middle).
    step (read_some _ _ _ Hl) in Hrun.
    destruct Hx as [(rs & Hne & ->) | (r & ->)].
    + rewrite (bind_Ret _ _ (st0 ++ _) (st0 ++ PList (map of_residual rs) :: items)
        (map of_residual rs)) in Hrun by reflexivity.
      assert (Hret : returns (norm_items (length st0) 0 (map of_residual rs)
                                (st0 ++ PList (map of_residual rs) :: items))).
      { rewrite bind_run in Hrun.
        destruct (norm_items _ _ _ _) as [[u | e |] st1];
          unfold returns; simpl; try discriminate. exact I. }
      pose proof (norm_items_returns _ rs [] _ Hl Hret) as Hnz.
      step (norm_items_triples _ rs [] _ Hl Hnz) in Hrun.
      cbn [app] in Hrun. rewrite insert_middle in Hrun.
      change (st0 ++ PList (map of_residual (map norm_triple rs)) :: items)
        with (st0 ++ [PList (map of_residual (map norm_triple rs))] ++ items) in Hrun.
      rewrite app_assoc in Hrun.
      specialize (IH (st0 ++ [PList (map of_residual (map norm_triple rs))]) st' Hitems).
      rewrite length_app, Nat.add_1_r in IH.
      destruct (IH Hrun) as (groups & -> & Hgroups & ->).
      exists (rs :: groups). split; [reflexivity|]. split.
      * constructor; [split|]; assumption.
      * rewrite <- app_assoc. reflexivity.
    + exfalso.
      rewrite (bind_Ret _ _ (st0 ++ _) (st0 ++ PList [PList [of_residual r]] :: items)
        [PList [of_residual r]]) in Hrun by reflexivity.
      rewrite (bind_Exc _ _ _ (st0 ++ PList [PList [of_residual r]] :: items) IndexError)
        in Hrun; [discriminate|].
      cbn [norm_items]. apply bind_Exc. destruct r as [[m s] n]. reflexivity.
Qed.

(** A flat parse result, whose first cell is a residual tuple, is refused
    with a [TypeError]. *)
Lemma norm_groups_flat (st0 : store) (r : residual) (items : list pyval)
    (groups : list loc) :
  norm_groups (length st0 :: groups) (st0 ++ of_residual r :: items)
    = (Exc TypeError, st0 ++ of_residual r :: items).
Proof.
  cbn [norm_groups].
  assert (Hl : (st0 ++ of_residual r :: items) !! length st0 = Some (of_residual r))
    by (now apply list_lookup_middle).
  step (read_some _ _ _ Hl).
  destruct r as [[m s] n].
  rewrite (bind_Ret _ _ (st0 ++ _) (st0 ++ of_residual (m, s, n) :: items)
    [PInt m; PInt s; PBool n]) by reflexivity.
  apply bind_Exc. cbn [norm_items]. apply bind_Exc. reflexivity.
Qed.

(** Every Sieve the constructor returns for a text is well-formed: its
    groups are lists of normalized triples, none empty. *)
Lemma init_str_ok (text : string) (st st' : store) (sv : Sieve) :
  Sieve_init (MStr text) None None st = (Ret sv, st') -> sieve_ok st' sv.
Proof.
  unfold Sieve_init. intros Hrun.
  destruct (parse_sieve_str text) as [items | e] eqn:Hparse.
  2: { rewrite (bind_Exc _ _ st st e) in Hrun; [discriminate|].
       apply bind_Exc. reflexivity. }
  rewrite (bind_Ret _ _ st (st ++ items) (seq (length st) (length items))) in Hrun.
  2: { rewrite (bind_Ret _ _ st st items) by reflexivity. apply alloc_all. }
  destruct (parse_sieve_str_shape _ _ Hparse) as [(r & rs & ->) | [Hne Hshape]].
  - cbn [map length seq] in Hrun.
    rewrite (bind_Exc _ _ _ _ _ (norm_groups_flat st r _ _)) in Hrun. discriminate.
  - apply bind_returns' in Hrun.
    destruct Hrun as (st1 & Hnorm & Hret). injection Hret as <- <-.
    destruct (norm_groups_cells items st st1 Hshape Hnorm)
      as (groups & -> & Hgroups & ->).
    split; [|split]; cbn [_residuals _cur_group].
    + destruct groups; [contradiction | discriminate].
    + reflexivity.
    + rewrite length_map. clear -Hgroups. revert st.
      induction Hgroups as [| rs groups [Hrs Hnz] _ IH]; intros st; [constructor|].
      cbn [length seq map]. constructor.
      * exists (map norm_triple rs). split; [|split].
        -- unfold holds. now apply list_lookup_middle.
        -- destruct rs; [contradiction | discriminate].
        -- clear -Hnz. induction Hnz; constructor; auto using normal_norm_triple.
      * specialize (IH (st ++ [PList (map of_residual (map norm_triple rs))])).
        rewrite length_app, Nat.add_1_r, <- app_assoc in IH. exact IH.
Qed.

(** ** The operators keep Sieves well-formed *)

Lemma init_int_ok (m : Z) (s : option Z) (n : option bool) (st : store) :
  m <> 0 ->
  sieve_ok (st ++ [PList [of_residual (m, default 0 s mod m, default false n)]])
    (mkSieve [length st] Last).
Proof.
  intros Hm. split; [discriminate|]. split; [reflexivity|].
  constructor; [|constructor].
  exists [(m, default 0 s mod m, default false n)].
  split; [apply lookup_alloc|]. split; [discriminate|].
  constructor; [|constructor]. split; [exact Hm | apply Zmod_mod].
Qed.

Lemma Sieve_or_single_ok (st : store) (A : Sieve) (rs : list residual) :
  sieve_ok st A -> rs <> [] -> Forall normal rs ->
  sieve_ok (st ++ [PList (map of_residual rs)])
    (mkSieve (_residuals A ++ [length st]) Last).
Proof.
  intros (Hne & Hcur & Hok) Hrs Hnormal.
  split; [|split]; cbn [_residuals _cur_group].
  - destruct (_residuals A); discriminate.
  - reflexivity.
  - apply Forall_app. split.
    + eapply Forall_impl; [exact Hok|]. intros l. apply group_ok_alloc.
    + constructor; [|constructor]. exists rs.
      split; [apply lookup_alloc|]. split; assumption.
Qed.

Lemma of_residual_inj (r r' : residual) : of_residual r = of_residual r' -> r = r'.
Proof.
  destruct r as [[m s] n], r' as [[m' s'] n']. simpl. congruence.
Qed.

Lemma map_of_residual_inj (rs rs' : list residual) :
  map of_residual rs = map of_residual rs' -> rs = rs'.
Proof.
  revert rs'. induction rs as [| r rs IH]; intros [| r' rs'] H;
    try discriminate; [reflexivity|].
  cbn [map] in H. injection H as Hr Hrs.
  apply of_residual_inj in Hr. rewrite Hr. f_equal. now apply IH.
Qed.

Lemma holds_inj (st : store) (l : loc) (rs rs' : list residual) :
  holds st l rs -> holds st l rs' -> rs = rs'.
Proof.
  unfold holds. intros H H'. rewrite H in H'. injection H' as H'.
  now apply map_of_residual_inj.
Qed.

(** After [A & B] every Sieve that was well-formed still is, [A] among
    them, though the last group of [A] is no longer what it was. *)
Lemma Sieve_and_single_ok (st : store) (sv : Sieve) (la : loc)
    (ra rb : list residual) :
  sieve_ok st sv -> group_ok st la -> holds st la ra -> Forall normal rb ->
  sieve_ok (<[la := PList (map of_residual (ra ++ rb))]> st) sv.
Proof.
  intros (Hne & Hcur & Hok) (ra' & Hra' & Hne' & Hnormal) Hla Hrb.
  rewrite (holds_inj _ _ _ _ Hla Hra') in *. clear Hla.
  split; [assumption|]. split; [assumption|].
  eapply Forall_impl; [exact Hok|]. intros l (rs & Hl & Hrs & Hn).
  destruct (Nat.eq_dec l la) as [-> | Hneq].
  - exists (ra' ++ rb). split; [|split].
    + unfold holds. apply list_lookup_insert_eq. now apply lookup_lt_Some in Hl.
    + destruct ra'; [contradiction | discriminate].
    + apply Forall_app. split; assumption.
  - exists rs. split; [|split; assumption].
    unfold holds. rewrite list_lookup_insert_ne by congruence. exact Hl.
Qed.

(** ** Printing and reading integers *)

Lemma pretty_N_char_digit (d : N) :
  (d < 10)%N ->
  isdigit (pretty_N_char d) = true
  /\ digit_of (pretty_N_char d) = Some (Z.of_N d).
Proof.
  intros Hd.
  destruct d as [| p]; [split; reflexivity|].
  do 4 (destruct p as [p | p |]; try lia; try (split; reflexivity)).
Qed.

Lemma str_all_impl (f g : ascii -> bool) (s : string) :
  (forall c, f c = true -> g c = true) -> str_all f s = true -> str_all g s = true.
Proof.
  intros Hfg. induction s as [| c s IH]; [reflexivity|]. cbn [str_all].
  intros H. apply andb_prop in H. destruct H as [Hc Hs].
  rewrite (Hfg c Hc), (IH Hs). reflexivity.
Qed.

Lemma str_all_app (f : ascii -> bool) (s t : string) :
  str_all f (s +:+ t) = str_all f s && str_all f t.
Proof.
  induction s as [| c s IH]; [reflexivity|].
  simpl. rewrite IH. apply andb_assoc.
Qed.

Lemma pretty_N_go_digits (x : N) :
  forall s, str_all isdigit s = true -> str_all isdigit (pretty_N_go x s) = true.
Proof.
  induction x as [x IH] using (well_founded_induction N.lt_wf_0). intros s Hs.
  destruct (N.eq_dec x 0%N) as [-> | Hx]; [assumption|].
  rewrite pretty_N_go_step by lia.
  apply IH; [apply N.div_lt; lia|]. cbn [str_all]. rewrite Hs.
  destruct (pretty_N_char_digit (x mod 10)) as [-> _];
    [apply N.mod_lt; lia | reflexivity].
Qed.

Lemma isdigit_not_underscore (c : ascii) : isdigit c = true -> Ascii.eqb c "_" = false.
Proof.
  destruct (Ascii.eqb_spec c "_") as [-> | _]; [discriminate | reflexivity].
Qed.

(** Reading the digits that [pretty] wrote. *)
Lemma int_digits_pretty (x : N) :
  forall s, (0 < x)%N ->
    int_digits 0 false (pretty_N_go x s) = int_digits (Z.of_N x) true s.
Proof.
  induction x as [x IH] using (well_founded_induction N.lt_wf_0). intros s Hx.
  rewrite pretty_N_go_step by assumption.
  destruct (pretty_N_char_digit (x mod 10)) as [Hdig Hval];
    [apply N.mod_lt; lia|].
  destruct (N.eq_dec (x / 10)%N 0%N) as [Hq | Hq].
  - rewrite Hq, pretty_N_go_0. cbn [int_digits].
    rewrite (isdigit_not_underscore _ Hdig), Hval. f_equal.
    pose proof (N.div_mod x 10%N ltac:(lia)) as Hdm. rewrite Hq in Hdm.
    generalize dependent (x mod 10)%N. intros r _ _ Hdm. lia.
  - rewrite IH; [| apply N.div_lt; lia | now apply N.neq_0_lt_0]. cbn [int_digits].
    rewrite (isdigit_not_underscore _ Hdig), Hval. f_equal.
    pose proof (N.div_mod x 10%N ltac:(lia)) as Hdm.
    generalize dependent (x mod 10)%N. generalize dependent (x / 10)%N.
    intros q _ r _ _ Hdm. lia.
Qed.

Lemma isdigit_digit_of (c : ascii) :
  isdigit c = true -> exists d, digit_of c = Some d.
Proof.
  unfold isdigit, digit_of. intros ->. eauto.
Qed.

Lemma int_digits_all_digits (s : string) :
  str_all isdigit s = true -> forall acc, exists z, int_digits acc true s = Some z.
Proof.
  induction s as [| c s IH]; intros Hs acc; [cbn; eauto|].
  cbn [str_all] in Hs. apply andb_prop in Hs. destruct Hs as [Hc Hs].
  cbn [int_digits]. rewrite (isdigit_not_underscore _ Hc).
  destruct (isdigit_digit_of _ Hc) as [d ->]. now apply IH.
Qed.

Lemma pretty_N_go_head (x : N) (s : string) :
  (0 < x)%N -> str_all isdigit s = true ->
  exists c rest, pretty_N_go x s = String c rest /\ isdigit c = true.
Proof.
  intros Hx Hs. pose proof (pretty_N_go_digits x s Hs) as Hall.
  destruct (pretty_N_go x s) as [| c rest] eqn:Hgo.
  - exfalso. pose proof (int_digits_pretty x s Hx) as Hint.
    rewrite Hgo in Hint. cbn [int_digits] in Hint.
    destruct (int_digits_all_digits s Hs (Z.of_N x)) as [z Hz]. congruence.
  - cbn [str_all] in Hall. apply andb_prop in Hall. destruct Hall as [Hc _]. eauto.
Qed.

Lemma isdigit_plain (c : ascii) :
  isdigit c = true ->
  isspace c = false /\ Ascii.eqb c "-" = false /\ Ascii.eqb c "+" = false
  /\ Ascii.eqb c "@" = false /\ Ascii.eqb c "!" = false
  /\ Ascii.eqb c "|" = false /\ Ascii.eqb c "&" = false.
Proof.
  intros H. repeat split;
    try (match goal with
         | |- Ascii.eqb c ?d = false =>
             destruct (Ascii.eqb_spec c d) as [-> | _]; [discriminate | reflexivity]
         end).
  unfold isdigit in H. unfold isspace.
  apply andb_prop in H. destruct H as [H1 H2].
  apply Nat.leb_le in H1. apply Nat.leb_le in H2.
  apply orb_false_iff. split; apply andb_false_iff.
  - right. apply Nat.leb_gt. lia.
  - right. apply Nat.leb_gt. lia.
Qed.

Lemma plain_facts (c : ascii) :
  plain c = true ->
  nospace c = true /\ Ascii.eqb c "!" = false
  /\ Ascii.eqb c "|" = false /\ Ascii.eqb c "&" = false
  /\ negb (Ascii.eqb c " ") && negb (Ascii.eqb c "010") = true.
Proof.
  unfold plain, numchar, nospace. intros H.
  apply orb_prop in H. destruct H as [H | H]; [apply orb_prop in H; destruct H as [H | H]|].
  - destruct (isdigit_plain c H) as (Hs & _ & _ & _ & Hb & Hp & Ha).
    rewrite Hs, Hb, Hp, Ha. repeat split.
    destruct (Ascii.eqb_spec c " ") as [-> | _]; [discriminate|].
    destruct (Ascii.eqb_spec c "010") as [-> | _]; [discriminate | reflexivity].
  - apply Ascii.eqb_eq in H. subst c. repeat split.
  - apply Ascii.eqb_eq in H. subst c. repeat split.
Qed.

Lemma numchar_plain (c : ascii) : numchar c = true -> plain c = true.
Proof.
  unfold plain. intros ->. reflexivity.
Qed.

Lemma numchar_not_at (c : ascii) : numchar c = true -> Ascii.eqb c "@" = false.
Proof.
  unfold numchar. intros H. apply orb_prop in H. destruct H as [H | H].
  - now destruct (isdigit_plain c H) as (_ & _ & _ & Hat & _).
  - apply Ascii.eqb_eq in H. subst c. reflexivity.
Qed.

Lemma lstrip_noblank (blank : ascii -> bool) (s : string) :
  str_all (fun c => negb (blank c)) s = true -> lstrip blank s = s.
Proof.
  destruct s as [| c s]; [reflexivity|]. cbn [str_all lstrip].
  intros H. apply andb_prop in H. destruct H as [Hc _].
  apply negb_true_iff in Hc. rewrite Hc. reflexivity.
Qed.

Lemma str_app_cons (c : ascii) (s t : string) :
  String c s +:+ t = String c (s +:+ t).
Proof. reflexivity. Qed.

Lemma str_app_nil_r (s : string) : s +:+ "" = s.
Proof.
  induction s as [| c s IH]; [reflexivity|]. rewrite str_app_cons. congruence.
Qed.

Lemma rev_app_rev_app (s acc acc' : string) :
  String.rev_app (String.rev_app s acc) acc' = String.rev_app acc (s +:+ acc').
Proof.
  revert acc. induction s as [| c s IH]; intros acc; [reflexivity|].
  cbn [String.rev_app]. rewrite IH. reflexivity.
Qed.

Lemma rev_rev (s : string) : String.rev (String.rev s) = s.
Proof.
  unfold String.rev. rewrite rev_app_rev_app. cbn [String.rev_app].
  apply str_app_nil_r.
Qed.

Lemma str_all_rev_app (f : ascii -> bool) (s acc : string) :
  str_all f (String.rev_app s acc) = str_all f s && str_all f acc.
Proof.
  revert acc. induction s as [| c s IH]; intros acc; [reflexivity|].
  cbn [String.rev_app str_all]. rewrite IH. cbn [str_all].
  destruct (f c), (str_all f s); reflexivity.
Qed.

Lemma strip_noblank (blank : ascii -> bool) (s : string) :
  str_all (fun c => negb (blank c)) s = true -> strip blank s = s.
Proof.
  intros H. unfold strip. rewrite (lstrip_noblank blank s H).
  rewrite lstrip_noblank; [apply rev_rev|].
  unfold String.rev. rewrite str_all_rev_app, H. reflexivity.
Qed.

Lemma isspace_int_isspace (c : ascii) : isspace c = false -> isspace_int c = false.
Proof.
  unfold isspace, isspace_int. intros H.
  apply orb_false_iff in H. destruct H as [H1 H2].
  rewrite H1. cbn [orb].
  destruct (Nat.eqb_spec (nat_of_ascii c) 32) as [Heq | _]; [|reflexivity].
  rewrite Heq in H2. discriminate.
Qed.

Lemma str_filter_all (f : ascii -> bool) (s : string) :
  str_all f s = true -> str_filter f s = s.
Proof.
  induction s as [| c s IH]; [reflexivity|]. cbn [str_all str_filter].
  intros H. apply andb_prop in H. destruct H as [-> Hs]. now rewrite IH.
Qed.

Lemma clean_plain (s : string) : str_all plain s = true -> clean_sieve_str s = s.
Proof.
  intros H. unfold clean_sieve_str.
  rewrite strip_noblank by (revert H; apply str_all_impl; intros c Hc;
                            now destruct (plain_facts c Hc)).
  apply str_filter_all. revert H. apply str_all_impl. intros c Hc.
  now destruct (plain_facts c Hc) as (_ & _ & _ & _ & Hf).
Qed.

Lemma py_str_pos (p : positive) : py_str (Zpos p) = pretty_N_go (N.pos p) "".
Proof. reflexivity. Qed.

Lemma py_str_neg (p : positive) :
  py_str (Zneg p) = String "-" (pretty_N_go (N.pos p) "").
Proof. reflexivity. Qed.

Lemma py_str_numchar (z : Z) : str_all numchar (py_str z) = true.
Proof.
  assert (Hpos : forall p, str_all numchar (pretty_N_go (N.pos p) "") = true).
  { intros p. apply (str_all_impl isdigit).
    - intros c Hc. unfold numchar. rewrite Hc. reflexivity.
    - now apply pretty_N_go_digits. }
  destruct z as [| p | p]; [reflexivity | |].
  - rewrite py_str_pos. apply Hpos.
  - rewrite py_str_neg. cbn [str_all]. rewrite Hpos. reflexivity.
Qed.

(** Reading back what [str] printed gives the integer. *)
Lemma py_int_str (z : Z) : py_int (py_str z) = Ok z.
Proof.
  unfold py_int.
  rewrite strip_noblank.
  2: { generalize (py_str_numchar z). apply str_all_impl. intros c Hc.
       destruct (plain_facts c (numchar_plain c Hc)) as [Hns _].
       unfold nospace in Hns. apply negb_true_iff in Hns.
       now rewrite (isspace_int_isspace c Hns). }
  destruct z as [| p | p]; [reflexivity | |].
  - rewrite py_str_pos.
    destruct (pretty_N_go_head (N.pos p) "" ltac:(lia) eq_refl)
      as (c & rest & Hgo & Hc).
    rewrite Hgo.
    destruct (isdigit_plain c Hc) as (_ & -> & -> & _).
    rewrite <- Hgo, int_digits_pretty by lia. reflexivity.
  - rewrite py_str_neg. cbn [Ascii.eqb Bool.eqb].
    rewrite int_digits_pretty by lia. reflexivity.
Qed.

(** ** The text [simplified] formats and parses again *)

Lemma str_in_app (c : ascii) (s t : string) :
  str_in c (s +:+ t) = str_in c s || str_in c t.
Proof.
  induction s as [| d s IH]; [reflexivity|].
  rewrite str_app_cons. cbn [str_in]. rewrite IH. apply orb_assoc.
Qed.

Lemma str_in_all (c : ascii) (f : ascii -> bool) (s : string) :
  f c = false -> str_all f s = true -> str_in c s = false.
Proof.
  intros Hc. induction s as [| d s IH]; [reflexivity|]. cbn [str_all str_in].
  intros H. apply andb_prop in H. destruct H as [Hd Hs].
  rewrite (IH Hs), orb_false_r.
  destruct (Ascii.eqb_spec c d) as [-> | _]; [congruence | reflexivity].
Qed.

Lemma str_split_none (sep : ascii) (s : string) :
  str_in sep s = false -> str_split sep s = [s].
Proof.
  induction s as [| c s IH]; [reflexivity|]. cbn [str_in str_split].
  intros H. apply orb_false_iff in H. destruct H as [Hc Hs].
  rewrite Ascii.eqb_sym, Hc, (IH Hs). reflexivity.
Qed.

Lemma str_split_app (sep : ascii) (s t : string) :
  str_in sep s = false ->
  str_split sep (s +:+ String sep t) = s :: str_split sep t.
Proof.
  induction s as [| c s IH].
  - intros _. change ("" +:+ String sep t) with (String sep t).
    cbn [str_split]. rewrite Ascii.eqb_refl. reflexivity.
  - cbn [str_in]. intros H. apply orb_false_iff in H. destruct H as [Hc Hs].
    rewrite str_app_cons. cbn [str_split].
    rewrite Ascii.eqb_sym, Hc, (IH Hs). reflexivity.
Qed.

Lemma fmt_pair_plain (x y : Z) : str_all plain (fmt_pair x y) = true.
Proof.
  unfold fmt_pair. rewrite str_all_app.
  change ("@" +:+ py_str y) with (String "@" (py_str y)). cbn [str_all].
  rewrite !(str_all_impl numchar plain _ numchar_plain (py_str_numchar _)).
  reflexivity.
Qed.

Lemma py_str_no_at (z : Z) : str_in "@" (py_str z) = false.
Proof.
  apply (str_in_all _ numchar); [reflexivity | apply py_str_numchar].
Qed.

Lemma parse_residual_fmt (x y : Z) :
  parse_residual (fmt_pair x y) = Ok (of_residual (x, y, false)).
Proof.
  unfold parse_residual. rewrite (clean_plain _ (fmt_pair_plain x y)).
  pose proof (fmt_pair_plain x y) as Hplain.
  destruct (fmt_pair x y) as [| c0 tail] eqn:Hfmt.
  - exfalso. apply (f_equal (str_in "@")) in Hfmt. unfold fmt_pair in Hfmt.
    rewrite str_in_app in Hfmt.
    change ("@" +:+ py_str y) with (String "@" (py_str y)) in Hfmt.
    cbn [str_in] in Hfmt. rewrite Ascii.eqb_refl, orb_true_r in Hfmt.
    discriminate.
  - cbn [str_all] in Hplain. apply andb_prop in Hplain. destruct Hplain as [Hc0 _].
    destruct (plain_facts c0 Hc0) as (_ & -> & _).
    rewrite <- Hfmt. unfold fmt_pair at 1. rewrite str_in_app.
    change ("@" +:+ py_str y) with (String "@" (py_str y)).
    cbn [str_in]. rewrite Ascii.eqb_refl, orb_true_r.
    unfold fmt_pair. change ("@" +:+ py_str y) with (String "@" (py_str y)).
    rewrite (str_split_app _ _ _ (py_str_no_at x)).
    rewrite (str_split_none _ _ (py_str_no_at y)).
    rewrite !py_int_str. reflexivity.
Qed.



(** ** What [simplified] returns *)

Lemma as_group_triples (rs : list residual) :
  as_group (PList (map of_residual rs)) = Some rs.
Proof.
  unfold as_group. induction rs as [| [[m s] n] rs IH]; [reflexivity|].
  cbn [map mapM]. fold (mapM as_residual (map of_residual rs)).
  cbn [of_residual as_residual]. rewrite IH. reflexivity.
Qed.

Lemma read_group_holds (st : store) (l : loc) (rs : list residual) :
  holds st l rs -> read_group l st = (Ret rs, st).
Proof.
  intros H. unfold read_group.
  rewrite (bind_Ret _ _ _ _ _ (read_some _ _ _ H)), as_group_triples. reflexivity.
Qed.

Lemma groups_of_holds (st : store) (sv : Sieve) (groups : list (list residual)) :
  Forall2 (holds st) (_residuals sv) groups -> groups_of sv st = (Ret groups, st).
Proof.
  unfold groups_of. induction 1 as [| l rs locs groups Hl _ IH]; [reflexivity|].
  cbn [mapM]. fold (mapM read_group locs).
  step (read_group_holds _ _ _ Hl).
  step IH. reflexivity.
Qed.







(** ** Texts the constructor refuses *)

(** No text with an ['&'] and no ['|'] is constructed: either it does not
    parse, or its flat parse result is refused with a [TypeError]. *)
Lemma init_str_and_refused (text : string) (st : store) :
  str_in "|" (clean_sieve_str text) = false ->
  str_in "&" (clean_sieve_str text) = true ->
  exists e, fst (Sieve_init (MStr text) None None st) = Exc e.
Proof.
  intros Hbar Hand. unfold Sieve_init.
  assert (Hparse : parse_sieve_str text
            = mapM parse_residual (str_split "&" (clean_sieve_str text))).
  { unfold parse_sieve_str. cbv zeta. rewrite Hbar. unfold parse_and_str.
    rewrite Hand. reflexivity. }
  destruct (parse_sieve_str text) as [items | e] eqn:Hitems.
  - symmetry in Hparse.
    destruct (mapM_parse_residual_shape _ _ Hparse) as (rs & -> & Hlen).
    destruct rs as [| r rs].
    { exfalso. apply (str_split_not_nil "&" (clean_sieve_str text)).
      apply length_zero_iff_nil. now rewrite <- Hlen. }
    exists TypeError.
    rewrite (bind_Ret _ _ st (st ++ map of_residual (r :: rs))
               (seq (length st) (length (map of_residual (r :: rs))))).
    2: { rewrite (bind_Ret _ _ st st (map of_residual (r :: rs))) by reflexivity.
         apply alloc_all. }
    cbn [map length seq].
    rewrite (bind_Exc _ _ _ _ _ (norm_groups_flat st r _ _)). reflexivity.
  - exists e. rewrite (bind_Exc _ _ st st e); [reflexivity|].
    apply bind_Exc. reflexivity.
Qed.

(** * Further properties *)

(** ** Membership, periods and normalization *)

Lemma in_residual_shift (v k m s : Z) (n : bool) :
  in_residual v (m, s + k * m, n) = in_residual v (m, s, n).
Proof.
  unfold in_residual. destruct ((m =? 1) || (m =? 0)); [reflexivity|].
  replace (v - (s + k * m)) with (v - s + (- k) * m) by lia.
  rewrite Z_mod_plus_full. reflexivity.
Qed.

Lemma in_residual_norm (v : Z) (r : residual) :
  in_residual v (norm_triple r) = in_residual v r.
Proof.
  destruct r as [[m s] n]. unfold norm_triple.
  destruct (Z.eq_dec m 0) as [-> | Hm].
  - reflexivity.
  - rewrite (Z.div_mod s m) at 2 by assumption.
    rewrite (Z.add_comm (m * (s / m))), (Z.mul_comm m).
    symmetry. apply in_residual_shift.
Qed.

Lemma in_residual_flag (v m s : Z) (n : bool) :
  in_residual v (m, s, negb n) = negb (in_residual v (m, s, n)).
Proof.
  unfold in_residual. destruct ((m =? 1) || (m =? 0)); [reflexivity|].
  destruct n, ((v - s) mod m =? 0); reflexivity.
Qed.

(** X1: membership in a residual has the modulus for a period, in the
    value and in the shift, and the flag complements it: for every residual,
    degenerate moduli 0 and 1 and negative moduli included,
    [in_residual(v + k*m, (m, s, n))] and [in_residual(v, (m, s + k*m, n))]
    are [in_residual(v, (m, s, n))], and [(m, s, not n)] holds exactly the
    values [(m, s, n)] does not. *)
Theorem in_residual_periodic (v k m s : Z) (n : bool) :
  in_residual (v + k * m) (m, s, n) = in_residual v (m, s, n)
  /\ in_residual v (m, s + k * m, n) = in_residual v (m, s, n)
  /\ in_residual v (m, s, negb n) = negb (in_residual v (m, s, n)).
Proof.
  split; [|split].
  - exact (in_residual_period v k (m, s, n)).
  - apply in_residual_shift.
  - apply in_residual_flag.
Qed.

(** X2: [norm_residual] on a triple with a modulus other than zero keeps
    the modulus and the flag and reduces the shift into the range of the
    modulus ([0 <= s' < m] for a positive one, [m < s' <= 0] for a negative
    one); a second normalization changes nothing, and the normalized
    residual has the same members. *)
Theorem norm_residual_invariants (m s : Z) (n : bool) :
  m <> 0 ->
  exists s',
    norm_residual (of_residual (m, s, n)) = Ok (of_residual (m, s', n))
    /\ (0 < m -> 0 <= s' < m) /\ (m < 0 -> m < s' <= 0)
    /\ norm_residual (of_residual (m, s', n)) = Ok (of_residual (m, s', n))
    /\ forall v, in_residual v (m, s', n) = in_residual v (m, s, n).
Proof.
  intros Hm. exists (s mod m).
  assert (Hnorm : forall s0, norm_residual (of_residual (m, s0, n))
                        = Ok (of_residual (m, s0 mod m, n))).
  { intros s0. rewrite norm_residual_triple.
    destruct (Z.eqb_spec m 0); [contradiction | reflexivity]. }
  split; [apply Hnorm|].
  split; [intros Hpos; apply Z.mod_pos_bound; assumption|].
  split; [intros Hneg; apply Z.mod_neg_bound; assumption|].
  split.
  - rewrite Hnorm, Zmod_mod. reflexivity.
  - intros v. exact (in_residual_norm v (m, s, n)).
Qed.

Lemma norm_residual_invariants_witness :
  exists s',
    norm_residual (of_residual (-5, 7, true)) = Ok (of_residual (-5, s', true))
    /\ (0 < -5 -> 0 <= s' < -5) /\ (-5 < 0 -> -5 < s' <= 0)
    /\ norm_residual (of_residual (-5, s', true)) = Ok (of_residual (-5, s', true))
    /\ forall v, in_residual v (-5, s', true) = in_residual v (-5, 7, true).
Proof.
  apply (norm_residual_invariants (-5) 7 true). lia.
Defined.

(** ** One member in every period *)

Lemma filter_seq_none {A : Type} (P : A -> Prop) `{!forall x, Decision (P x)}
    (f : nat -> A) (i n : nat) :
  (forall k, (i <= k < i + n)%nat -> ~ P (f k)) ->
  filter P (map f (seq i n)) = [].
Proof.
  revert i. induction n as [| n IH]; intros i Hnone; [reflexivity|].
  cbn [seq map]. rewrite filter_cons_False by (apply Hnone; lia).
  apply IH. intros k Hk. apply Hnone. lia.
Qed.

Lemma filter_seq_one {A : Type} (P : A -> Prop) `{!forall x, Decision (P x)}
    (f : nat -> A) (i n j : nat) :
  (i <= j < i + n)%nat -> P (f j) ->
  (forall k, (i <= k < i + n)%nat -> k <> j -> ~ P (f k)) ->
  filter P (map f (seq i n)) = [f j].
Proof.
  revert i. induction n as [| n IH]; intros i Hj Hyes Hno; [lia|].
  cbn [seq map]. destruct (Nat.eq_dec i j) as [-> | Hne].
  - rewrite filter_cons_True by assumption. f_equal.
    apply filter_seq_none. intros k Hk. apply Hno; lia.
  - rewrite filter_cons_False by (apply Hno; lia).
    apply IH; [lia | assumption |]. intros k Hk. apply Hno. lia.
Qed.

Lemma in_residual_pos (v m s : Z) :
  0 < m -> in_residual v (m, s, false) = ((v - s) mod m =? 0).
Proof.
  intros Hm. unfold in_residual.
  destruct (Z.eqb_spec m 1) as [-> | H1]; simpl.
  - rewrite Z.mod_1_r. reflexivity.
  - destruct (Z.eqb_spec m 0); [lia | reflexivity].
Qed.

(** X3: among any [m] consecutive integers a residual [(m, s, False)] with
    a positive modulus keeps exactly one, the one congruent to [s]:
    [for_iter((m, s, False), range(a, a + m))] is [[a + (s - a) % m]]; with
    [a = 0] and a normalized shift that is [[s]]. *)
Theorem for_iter_window (m s a : Z) :
  0 < m ->
  for_iter (m, s, false) (range a (a + m)) = [a + (s - a) mod m].
Proof.
  intros Hm. unfold for_iter, range.
  replace (a + m - a) with m by lia.
  pose proof (Z.mod_pos_bound (s - a) m Hm) as Hbound.
  set (j := Z.to_nat ((s - a) mod m)).
  replace (a + (s - a) mod m) with (a + Z.of_nat j) by (unfold j; lia).
  assert (Hmem : forall k : nat, (k < Z.to_nat m)%nat ->
            in_residual (a + Z.of_nat k) (m, s, false) = true <-> k = j).
  { intros k Hk. rewrite in_residual_pos by assumption. rewrite Z.eqb_eq.
    split.
    - intros Hzero. apply Z.mod_divide in Hzero; [|lia].
      destruct Hzero as [q Hq].
      assert (Hk' : Z.of_nat k = (s - a) mod m).
      { apply (Z.mod_unique_pos (s - a) m (- q)); lia. }
      unfold j. lia.
    - intros ->. unfold j. rewrite Z2Nat.id by lia.
      pose proof (Z.mod_eq (s - a) m ltac:(lia)) as Hr.
      replace (a + (s - a) mod m - s) with ((- ((s - a) / m)) * m) by lia.
      apply Z_mod_mult. }
  apply (filter_seq_one (fun n => in_residual n (m, s, false) = true)
           (fun i => a + Z.of_nat i) 0 (Z.to_nat m) j).
  - unfold j. lia.
  - apply Hmem; [unfold j; lia | reflexivity].
  - intros k Hk Hne Hin. apply Hne. apply Hmem; [lia | assumption].
Qed.

Lemma for_iter_window_witness :
  for_iter (7, 3, false) (range 10 (10 + 7)) = [10 + (3 - 10) mod 7].
Proof.
  apply (for_iter_window 7 3 10). lia.
Defined.

(** ** What [simplify_group] returns *)

Lemma simplify_group_cons (g0 : residual) (rest : list residual) :
  simplify_group (g0 :: rest) = simplify_while g0 rest.
Proof.
  destruct rest as [| g1 [| g2 rest]]; reflexivity.
Qed.

Lemma combine_shape (g0 g1 : residual) :
  match combine g0 g1 with
  | Ok r => exists s, r = (fst (fst g0) * fst (fst g1), s, false)
  | Raise e => e = ValueError
  end.
Proof.
  unfold combine. destruct (seek_loop _ _ _ _ _) as [s' seek'].
  destruct (seek' =? _); [reflexivity | eauto].
Qed.

Lemma simplify_while_shape (rest : list residual) (g0 g1 : residual) :
  match simplify_while g0 (g1 :: rest) with
  | Ok out => exists s,
      out = [(fold_left Z.mul (moduli (g1 :: rest)) (fst (fst g0)), s, false)]
  | Raise e => e = ValueError
  end.
Proof.
  revert g0 g1. induction rest as [| g2 rest IH]; intros g0 g1.
  - cbn [simplify_while]. pose proof (combine_shape g0 g1) as Hc.
    destruct (combine g0 g1) as [r | e]; [|exact Hc].
    destruct Hc as [s ->]. exists s. reflexivity.
  - change (simplify_while g0 (g1 :: g2 :: rest))
      with (r ← combine g0 g1; simplify_while r (g2 :: rest)).
    pose proof (combine_shape g0 g1) as Hc.
    destruct (combine g0 g1) as [r | e]; [|exact Hc].
    destruct Hc as [s ->]. exact (IH _ g2).
Qed.

(** X4: [simplify_group] returns a group of at most one residual as it is;
    for a group of two or more it either raises [ValueError] or returns
    exactly one residual, never negated, whose modulus is the product of
    all the moduli of the group, negated residuals and common factors
    included. *)
Theorem simplify_group_result (group : list residual) :
  match simplify_group group with
  | Ok out =>
      ((length group <= 1)%nat /\ out = group)
      \/ ((2 <= length group)%nat
          /\ exists s, out = [(product (moduli group), s, false)])
  | Raise e => e = ValueError /\ (2 <= length group)%nat
  end.
Proof.
  destruct group as [| g0 [| g1 rest]].
  - left. split; [simpl; lia | reflexivity].
  - left. split; [simpl; lia | reflexivity].
  - rewrite simplify_group_cons.
    pose proof (simplify_while_shape rest g0 g1) as Hs.
    destruct (simplify_while g0 (g1 :: rest)) as [out | e].
    + right. split; [simpl; lia|]. destruct Hs as [s ->]. exists s.
      unfold product. cbn [moduli map fold_left]. rewrite Z.mul_1_l.
      reflexivity.
    + split; [assumption | simpl; lia].
Qed.

(** X5: on two residuals [simplify_group] raises exactly when the product
    of the moduli is 0 and both residuals hold the smaller of the two
    shifts; for any other pair it returns one residual with the product for
    its modulus, whether or not some integer is in both. *)
Theorem pair_raises_iff (g0 g1 : residual) :
  let m := fst (fst g0) * fst (fst g1) in
  let s0 := Z.min (snd (fst g0)) (snd (fst g1)) in
  (simplify_group [g0; g1] = Raise ValueError
   <-> m = 0 /\ in_residual s0 g0 = true /\ in_residual s0 g1 = true)
  /\ (simplify_group [g0; g1] <> Raise ValueError
      -> exists s, simplify_group [g0; g1] = Ok [(m, s, false)]).
Proof.
  intros m s0. cbn [simplify_group].
  pose proof (combine_raises_iff g0 g1) as Hiff. cbn zeta in Hiff.
  fold m s0 in Hiff. rewrite agree_both, andb_true_iff in Hiff.
  pose proof (combine_shape g0 g1) as Hshape. fold m in Hshape.
  destruct (combine g0 g1) as [r | e]; cbn in *.
  - split.
    + split; [discriminate|]. intros H. apply Hiff in H. contradiction.
    + intros _. destruct Hshape as [s ->]. eauto.
  - subst e. split.
    + split; [intros _; apply Hiff; exact I | reflexivity].
    + intros H. contradiction.
Qed.

(** No modulus being zero, no step of the loop of lines 181-185 raises. *)
Lemma simplify_while_nonzero (rest : list residual) (g0 : residual) :
  nonzero g0 -> Forall nonzero rest ->
  exists out, simplify_while g0 rest = Ok out.
Proof.
  revert g0. induction rest as [| g1 rest IH]; intros g0 H0 Hrest.
  - eexists. reflexivity.
  - cbn [simplify_while]. inversion Hrest as [| ? ? H1 Hrest']; subst.
    pose proof (combine_raises_iff g0 g1) as Hiff. cbn zeta in Hiff.
    pose proof (combine_shape g0 g1) as Hshape.
    destruct (combine g0 g1) as [r | e].
    + destruct Hshape as [s ->]. apply IH; [|assumption].
      unfold nonzero in *. cbn [fst]. lia.
    + exfalso. destruct Hiff as [Hiff _]. destruct (Hiff I) as [Hm _].
      unfold nonzero in *. lia.
Qed.

(** X6: a group in which no modulus is zero never makes [simplify_group]
    raise, whatever the shifts and flags: the error 'this combination of
    residuals have no true values' is out of reach for it, also when no
    integer is in all the residuals. *)
Theorem simplify_group_nonzero (group : list residual) :
  Forall nonzero group -> exists out, simplify_group group = Ok out.
Proof.
  intros Hall. destruct group as [| g0 rest]; [eexists; reflexivity|].
  rewrite simplify_group_cons. inversion Hall; subst.
  now apply simplify_while_nonzero.
Qed.

Lemma simplify_group_nonzero_witness :
  exists out, simplify_group [(2, 0, false); (2, 1, false); (4, 2, true)] = Ok out.
Proof.
  apply (simplify_group_nonzero [(2, 0, false); (2, 1, false); (4, 2, true)]).
  repeat constructor; unfold nonzero; simpl; lia.
Defined.

(** ** Coprime moduli: the simplified residual has the members of the group *)

Lemma divide_coprime_mul (a b x : Z) :
  Z.gcd a b = 1 -> (a | x) -> (b | x) -> (a * b | x).
Proof.
  intros Hg [k Hk] Hb. subst x.
  assert (Hbk : (b | k)).
  { apply (Z.gauss b a k); [rewrite Z.mul_comm; assumption|].
    rewrite Z.gcd_comm. assumption. }
  destruct Hbk as [k' ->]. exists k'. ring.
Qed.

Lemma gcd_mul_coprime (a b c : Z) :
  Z.gcd a c = 1 -> Z.gcd b c = 1 -> Z.gcd (a * b) c = 1.
Proof.
  intros Ha Hb.
  destruct (Z.gcd_bezout a c 1 Ha) as (x & u & Hxu).
  destruct (Z.gcd_bezout b c 1 Hb) as (y & w & Hyw).
  apply Z.bezout_1_gcd. exists (x * y), (x * a * w + u * y * b + u * c * w).
  transitivity ((x * a + u * c) * (y * b + w * c)); [ring|].
  rewrite Hxu, Hyw. reflexivity.
Qed.

Lemma combine_coprime (m0 s0 m1 s1 : Z) :
  0 < m0 -> 0 < m1 -> Z.gcd m0 m1 = 1 ->
  exists s,
    combine (m0, s0, false) (m1, s1, false) = Ok (m0 * m1, s, false)
    /\ Z.min s0 s1 <= s < Z.min s0 s1 + m0 * m1
    /\ forall v, in_residual v (m0 * m1, s, false)
                 = in_residual v (m0, s0, false) && in_residual v (m1, s1, false).
Proof.
  intros H0 H1 Hg.
  assert (Hm : 0 < m0 * m1) by now apply Z.mul_pos_pos.
  set (m := m0 * m1) in *. set (smin := Z.min s0 s1).
  (* a candidate in the window the loop searches *)
  destruct (Z.gcd_bezout m0 m1 1 Hg) as (a & b & Hab).
  set (x := s0 + a * m0 * (s1 - s0)).
  set (q := (x - smin) / m).
  pose proof (Z.mod_eq (x - smin) m ltac:(lia)) as Hj.
  pose proof (Z.mod_pos_bound (x - smin) m Hm) as Hjb.
  set (j := (x - smin) mod m) in *. fold q in Hj.
  assert (Hc0 : in_residual (smin + j) (m0, s0, false) = true).
  { rewrite in_residual_pos by assumption. apply Z.eqb_eq.
    replace (smin + j - s0) with ((a * (s1 - s0) - m1 * q) * m0)
      by (rewrite Hj; unfold x, m; ring).
    apply Z_mod_mult. }
  assert (Hc1 : in_residual (smin + j) (m1, s1, false) = true).
  { rewrite in_residual_pos by assumption. apply Z.eqb_eq.
    replace (smin + j - s1)
      with ((- (s1 - s0) * b - m0 * q) * m1
            + (s1 - s0) * (a * m0 + b * m1 - 1))
      by (rewrite Hj; unfold x, m; ring).
    rewrite Hab, Z.sub_diag, Z.mul_0_r, Z.add_0_r. apply Z_mod_mult. }
  unfold combine. cbn [fst snd]. fold m smin.
  pose proof (seek_loop_spec (m0, s0, false) (m1, s1, false) m smin 0) as Hspec.
  destruct (seek_loop _ _ m smin 0) as [s' seek'].
  destruct Hspec as (Hle & Hs & Hexit & Hall).
  assert (Hseek : seek' <= j).
  { destruct (Z_le_gt_dec seek' j) as [|Hgt]; [assumption|]. exfalso.
    destruct (Hall j) as [Hno _]; [lia|].
    rewrite Z.sub_0_r, agree_both, Hc0, Hc1 in Hno. discriminate. }
  destruct (Z.eqb_spec seek' m) as [Heq | _]; [lia|].
  replace (seek' <=? m) with true in Hexit by (symmetry; apply Z.leb_le; lia).
  rewrite andb_true_r in Hexit. apply negb_false_iff in Hexit.
  rewrite agree_both in Hexit. apply andb_true_iff in Hexit.
  destruct Hexit as [Hs0 Hs1].
  rewrite in_residual_pos in Hs0, Hs1 by assumption.
  apply Z.eqb_eq in Hs0, Hs1.
  apply Z.mod_divide in Hs0; [|lia]. apply Z.mod_divide in Hs1; [|lia].
  exists s'. split; [reflexivity|]. split; [lia|].
  intros v. rewrite !in_residual_pos by assumption.
  apply eq_true_iff_eq. rewrite andb_true_iff, !Z.eqb_eq.
  rewrite !Z.mod_divide by lia. split.
  - intros Hv. split.
    + replace (v - s0) with ((v - s') + (s' - s0)) by ring.
      apply Z.divide_add_r; [|assumption].
      apply Z.divide_trans with m; [|assumption]. exists m1. unfold m. ring.
    + replace (v - s1) with ((v - s') + (s' - s1)) by ring.
      apply Z.divide_add_r; [|assumption].
      apply Z.divide_trans with m; [|assumption]. exists m0. unfold m. ring.
  - intros [Hv0 Hv1]. apply divide_coprime_mul; [assumption | |].
    + replace (v - s') with ((v - s0) - (s' - s0)) by ring.
      now apply Z.divide_sub_r.
    + replace (v - s') with ((v - s1) - (s' - s1)) by ring.
      now apply Z.divide_sub_r.
Qed.

Lemma simplify_while_coprime (rest : list residual) (g0 : residual) :
  pos_residual g0 -> Forall pos_residual rest ->
  Forall (fun m' => Z.gcd (fst (fst g0)) m' = 1) (moduli rest) ->
  coprime_all (moduli rest) ->
  exists r,
    simplify_while g0 rest = Ok [r]
    /\ pos_residual r
    /\ fst (fst r) = fold_left Z.mul (moduli rest) (fst (fst g0))
    /\ forall v, in_residual v r
                 = in_residual v g0 && forallb (in_residual v) rest.
Proof.
  revert g0. induction rest as [| g1 rest IH]; intros g0 H0 Hrest Hg0 Hco.
  - exists g0. split; [reflexivity|]. split; [exact H0|]. split; [reflexivity|].
    intros v. cbn [forallb]. rewrite andb_true_r. reflexivity.
  - destruct g0 as [[m0 s0] n0]. destruct g1 as [[m1 s1] n1].
    destruct H0 as [Hm0 Hn0]. cbn [fst snd] in Hm0, Hn0. subst n0.
    inversion Hrest as [| ? ? [Hm1 Hn1] Hrest']; subst.
    cbn [fst snd] in Hm1, Hn1. subst n1.
    cbn [moduli map fst] in Hg0, Hco.
    inversion Hg0 as [| ? ? Hg01 Hg0']; subst.
    destruct Hco as [Hg1 Hco].
    destruct (combine_coprime m0 s0 m1 s1 Hm0 Hm1 Hg01) as (s & Hc & _ & Hmem).
    cbn [simplify_while]. rewrite Hc. cbn [mbind result_bind].
    destruct (IH (m0 * m1, s, false)) as (r & Hr & Hposr & Hmod & Hin).
    + split; [now apply Z.mul_pos_pos | reflexivity].
    + assumption.
    + cbn [fst]. fold (moduli rest) in Hg0', Hg1.
      rewrite Forall_forall in Hg0', Hg1. apply Forall_forall.
      intros m' Hm'. apply gcd_mul_coprime; auto.
    + assumption.
    + exists r. split; [exact Hr|]. split; [exact Hposr|]. split; [exact Hmod|].
      intros v. rewrite Hin, Hmem. cbn [forallb]. symmetry. apply andb_assoc.
Qed.

(** X7: for a group of residuals that are not negated, with positive and
    pairwise coprime moduli, [simplify_group] returns one residual whose
    modulus is the product of the moduli and whose members are exactly the
    integers that are in every residual of the group. *)
Theorem simplify_group_coprime (group : list residual) :
  group <> [] -> Forall pos_residual group -> coprime_all (moduli group) ->
  exists r,
    simplify_group group = Ok [r]
    /\ fst (fst r) = product (moduli group)
    /\ forall v, in_residual v r = forallb (in_residual v) group.
Proof.
  intros Hne Hpos Hco. destruct group as [| g0 rest]; [contradiction|].
  rewrite simplify_group_cons. inversion Hpos; subst.
  cbn [moduli map coprime_all] in Hco. destruct Hco as [Hg0 Hco].
  destruct (simplify_while_coprime rest g0) as (r & Hr & _ & Hmod & Hin); auto.
  exists r. split; [exact Hr|]. split; [|exact Hin].
  rewrite Hmod. unfold product. cbn [moduli map fold_left].
  rewrite Z.mul_1_l. reflexivity.
Qed.

Lemma simplify_group_coprime_witness :
  exists r,
    simplify_group [(3, 2, false); (4, 1, false); (5, 0, false)] = Ok [r]
    /\ fst (fst r) = product (moduli [(3, 2, false); (4, 1, false); (5, 0, false)])
    /\ forall v, in_residual v r
         = forallb (in_residual v) [(3, 2, false); (4, 1, false); (5, 0, false)].
Proof.
  apply (simplify_group_coprime [(3, 2, false); (4, 1, false); (5, 0, false)]).
  - discriminate.
  - repeat constructor; simpl; lia.
  - simpl. repeat split; repeat constructor.
Defined.

Lemma for_iter_and (r g0 g1 : residual) (z : list Z) :
  (forall v, in_residual v r = in_residual v g0 && in_residual v g1) ->
  for_iter r z = for_iter g1 (for_iter g0 z).
Proof.
  intros Hmem. unfold for_iter. rewrite list_filter_filter.
  apply list_filter_iff. intros v. rewrite Hmem, andb_true_iff. tauto.
Qed.

(** X8: filtering with the residual that [simplify_group] returns for two
    residuals that are not negated, with positive coprime moduli, is
    filtering with the one and then with the other: the simplified residual
    selects from any list what the two select together, in the same
    order. *)
Theorem for_iter_simplified (m0 s0 m1 s1 : Z) (z : list Z) :
  0 < m0 -> 0 < m1 -> Z.gcd m0 m1 = 1 ->
  exists r,
    simplify_group [(m0, s0, false); (m1, s1, false)] = Ok [r]
    /\ for_iter r z = for_iter (m1, s1, false) (for_iter (m0, s0, false) z).
Proof.
  intros H0 H1 Hg.
  destruct (combine_coprime m0 s0 m1 s1 H0 H1 Hg) as (s & Hc & _ & Hmem).
  exists (m0 * m1, s, false). split.
  - cbn [simplify_group]. rewrite Hc. reflexivity.
  - now apply for_iter_and.
Qed.

Lemma for_iter_simplified_witness :
  exists r,
    simplify_group [(3, 2, false); (4, 1, false)] = Ok [r]
    /\ for_iter r (range 0 24)
       = for_iter (4, 1, false) (for_iter (3, 2, false) (range 0 24)).
Proof.
  apply (for_iter_simplified 3 2 4 1 (range 0 24)); [lia | lia | reflexivity].
Defined.

(** ** What [clean_sieve_str] removes *)

Lemma kept_isspace (c : ascii) : kept c = false -> isspace c = true.
Proof.
  unfold kept. intros H. apply andb_false_iff in H.
  destruct H as [H | H]; apply negb_false_iff, Ascii.eqb_eq in H; subst;
    reflexivity.
Qed.






















(** ** Blank texts *)

Lemma lstrip_blank (blank : ascii -> bool) (s : string) :
  str_all blank s = true -> lstrip blank s = EmptyString.
Proof.
  induction s as [| c s IH]; [reflexivity|]. cbn [str_all lstrip].
  intros H. apply andb_prop in H. destruct H as [-> Hs]. exact (IH Hs).
Qed.

Lemma clean_blank (s : string) :
  str_all isspace s = true -> clean_sieve_str s = EmptyString.
Proof.
  intros H. unfold clean_sieve_str, strip. rewrite (lstrip_blank _ _ H).
  reflexivity.
Qed.

(** X10: a text made of whitespace only (the empty text included) is
    refused with [IndexError], the [res[0]] of line 58 on the cleaned, empty
    text: by [parse_residual], by [parse_sieve_str] and by the constructor,
    which leaves the store as it was. *)
Theorem blank_text_raises (text : string) (st : store) :
  str_all isspace text = true ->
  parse_residual text = Raise IndexError
  /\ parse_sieve_str text = Raise IndexError
  /\ Sieve_init (MStr text) None None st = (Exc IndexError, st).
Proof.
  intros Hblank. pose proof (clean_blank text Hblank) as Hclean.
  assert (Hparse : parse_sieve_str text = Raise IndexError).
  { unfold parse_sieve_str. rewrite Hclean. reflexivity. }
  split; [|split].
  - unfold parse_residual. rewrite Hclean. reflexivity.
  - exact Hparse.
  - unfold Sieve_init. rewrite Hparse. reflexivity.
Qed.

Lemma blank_text_raises_witness :
  parse_residual "  " = Raise IndexError
  /\ parse_sieve_str "  " = Raise IndexError
  /\ Sieve_init (MStr "  ") None None [] = (Exc IndexError, []).
Proof.
  apply (blank_text_raises "  " []). reflexivity.
Defined.

(** ** A printed residual parses to itself *)

Lemma str_in_at_pair (x y : Z) : str_in "@" (fmt_pair x y) = true.
Proof.
  unfold fmt_pair. rewrite str_in_app.
  change ("@" +:+ py_str y) with (String "@" (py_str y)).
  cbn [str_in]. rewrite Ascii.eqb_refl. apply orb_true_r.
Qed.

Lemma str_split_pair (x y : Z) :
  str_split "@" (fmt_pair x y) = [py_str x; py_str y].
Proof.
  unfold fmt_pair. change ("@" +:+ py_str y) with (String "@" (py_str y)).
  rewrite (str_split_app _ _ _ (py_str_no_at x)).
  rewrite (str_split_none _ _ (py_str_no_at y)). reflexivity.
Qed.

Lemma py_str_plain (z : Z) : str_all plain (py_str z) = true.
Proof.
  exact (str_all_impl numchar plain _ numchar_plain (py_str_numchar z)).
Qed.

Lemma py_str_head (z : Z) :
  exists c rest, py_str z = String c rest /\ plain c = true.
Proof.
  pose proof (py_str_plain z) as H.
  destruct (py_str z) as [| c rest] eqn:Hz.
  - exfalso. pose proof (py_int_str z) as Hint. rewrite Hz in Hint.
    discriminate.
  - cbn [str_all] in H. apply andb_prop in H. destruct H as [Hc _]. eauto.
Qed.

Lemma str_all_nospace_clean (s : string) :
  str_all nospace s = true -> clean_sieve_str s = s.
Proof.
  intros H. unfold clean_sieve_str.
  rewrite (strip_noblank isspace s H). apply str_filter_all.
  revert H. apply str_all_impl. intros c Hc.
  destruct (negb (Ascii.eqb c " ") && negb (Ascii.eqb c "010")) eqn:Hk;
    [reflexivity|].
  unfold nospace in Hc. rewrite (kept_isspace c Hk) in Hc. discriminate.
Qed.

Lemma plain_nospace (s : string) : str_all plain s = true -> str_all nospace s = true.
Proof.
  apply str_all_impl. intros c Hc. now destruct (plain_facts c Hc).
Qed.

Lemma parse_residual_bang (x y : Z) :
  parse_residual (String "!" (fmt_pair x y)) = Ok (of_residual (x, y, true)).
Proof.
  unfold parse_residual.
  rewrite str_all_nospace_clean
    by (cbn [str_all]; rewrite (plain_nospace _ (fmt_pair_plain x y)); reflexivity).
  cbn [Ascii.eqb Bool.eqb andb].
  rewrite str_in_at_pair, str_split_pair, !py_int_str. reflexivity.
Qed.

Lemma parse_residual_bare (x : Z) (n : bool) :
  parse_residual ((if n then "!" else "") +:+ py_str x)
    = Ok (of_residual (x, 0, n)).
Proof.
  unfold parse_residual.
  destruct (py_str_head x) as (c & rest & Hx & Hc).
  destruct (plain_facts c Hc) as (_ & Hbang & _).
  destruct n.
  - change ("!" +:+ py_str x) with (String "!" (py_str x)).
    rewrite str_all_nospace_clean
      by (cbn [str_all]; rewrite (plain_nospace _ (py_str_plain x)); reflexivity).
    cbn [Ascii.eqb Bool.eqb andb].
    rewrite py_str_no_at, py_int_str. reflexivity.
  - change ("" +:+ py_str x) with (py_str x).
    rewrite (clean_plain _ (py_str_plain x)).
    rewrite Hx, Hbang, <- Hx.
    rewrite py_str_no_at, py_int_str. reflexivity.
Qed.

Lemma parse_residual_text (r : residual) :
  parse_residual (fmt_residual r) = Ok (of_residual r).
Proof.
  destruct r as [[m s] [|]].
  - exact (parse_residual_bang m s).
  - exact (parse_residual_fmt m s).
Qed.

(** X11: [parse_residual] reads back what [__str__] prints for a residual:
    for all integers [m], [s] and both flags the text of line 315, the
    modulus, ['@'] and the shift with ['!'] in front when the flag is set,
    parses to [(m, s, n)], negative numbers included; without the ['@'] and
    the shift it parses to [(m, 0, n)].  (The interpreter's limit on the
    digits of a printed integer is not modelled.) *)
Theorem parse_residual_roundtrip (m s : Z) (n : bool) :
  parse_residual (fmt_residual (m, s, n)) = Ok (of_residual (m, s, n))
  /\ parse_residual ((if n then "!" else "") +:+ py_str m)
     = Ok (of_residual (m, 0, n)).
Proof.
  split; [apply parse_residual_text | apply parse_residual_bare].
Qed.

(** ** The text of a sieve and its parse *)

























(** ** Construction from a text: fresh cells, normalized groups *)


Lemma holds_fresh_groups (groups : list (list residual)) :
  forall pre post : store,
    Forall2 (holds (pre ++ map (fun rs => PList (map of_residual rs)) groups ++ post))
      (seq (length pre) (length groups)) groups.
Proof.
  induction groups as [| rs groups IH]; intros pre post; [constructor|].
  cbn [map length seq app]. constructor.
  - unfold holds. now apply list_lookup_middle.
  - specialize (IH (pre ++ [PList (map of_residual rs)]) post).
    rewrite length_app, Nat.add_1_r, <- app_assoc in IH. exact IH.
Qed.


Lemma groups_ok_of (st : store) (locs : list loc) (groups : list (list residual)) :
  Forall (fun rs => rs <> [] /\ Forall normal rs) groups ->
  Forall2 (holds st) locs groups -> Forall (group_ok st) locs.
Proof.
  intros Hok Hholds. induction Hholds as [| l rs locs groups Hl _ IH].
  - constructor.
  - inversion Hok as [| ? ? [Hne Hnormal] Hrest]; subst.
    constructor; [exists rs; auto | now apply IH].
Qed.

Lemma map_norm_normal (rs : list residual) :
  Forall normal rs -> map norm_triple rs = rs.
Proof.
  induction 1 as [| r rs Hr _ IH]; [reflexivity|].
  cbn [map]. now rewrite (norm_triple_normal r Hr), IH.
Qed.

Lemma Forall_normal_norm (rs : list residual) :
  Forall nonzero rs -> Forall normal (map norm_triple rs).
Proof.
  induction 1; constructor; auto using normal_norm_triple.
Qed.

(** X13: when the constructor returns a Sieve for an ASCII text, the parse result
    was a list of groups of triples, none empty and no modulus zero; the
    Sieve holds these groups, every shift reduced by its modulus, in cells
    that are new, in the order of the text; the store it found is a prefix
    of the store it leaves, so no Sieve that existed is changed; and the
    new Sieve is well-formed. *)
Theorem init_str_fresh (text : string) (st st' : store) (sv : Sieve) :
  ascii_text text = true ->
  Sieve_init (MStr text) None None st = (Ret sv, st') ->
  exists groups : list (list residual),
    parse_sieve_str text = Ok (map (fun rs => PList (map of_residual rs)) groups)
    /\ Forall (fun rs => rs <> [] /\ Forall nonzero rs) groups
    /\ st' = st ++ map (fun rs => PList (map of_residual (map norm_triple rs))) groups
    /\ sv = mkSieve (seq (length st) (length groups)) Last
    /\ groups_of sv st' = (Ret (map (map norm_triple) groups), st')
    /\ sieve_ok st' sv.
Proof.
  unfold Sieve_init. intros _ Hrun.
  destruct (parse_sieve_str text) as [items | e] eqn:Hparse.
  2: { rewrite (bind_Exc _ _ st st e) in Hrun; [discriminate|].
       apply bind_Exc. reflexivity. }
  rewrite (bind_Ret _ _ st (st ++ items) (seq (length st) (length items))) in Hrun.
  2: { rewrite (bind_Ret _ _ st st items) by reflexivity. apply alloc_all. }
  destruct (parse_sieve_str_shape _ _ Hparse) as [(r & rs & ->) | [Hne Hshape]].
  { cbn [map length seq] in Hrun.
    rewrite (bind_Exc _ _ _ _ _ (norm_groups_flat st r _ _)) in Hrun. discriminate. }
  apply bind_returns' in Hrun.
  destruct Hrun as (st1 & Hnorm & Hret). injection Hret as <- <-.
  destruct (norm_groups_cells items st st1 Hshape Hnorm)
    as (groups & -> & Hgroups & ->).
  exists groups. rewrite length_map.
  assert (Hholds : Forall2
            (holds (st ++ map (fun rs => PList (map of_residual (map norm_triple rs))) groups))
            (seq (length st) (length groups)) (map (map norm_triple) groups)).
  { pose proof (holds_fresh_groups (map (map norm_triple) groups) st []) as Hf.
    rewrite app_nil_r, map_map, length_map in Hf. exact Hf. }
  split; [reflexivity|]. split; [exact Hgroups|]. split; [reflexivity|].
  split; [reflexivity|]. split; [now apply groups_of_holds|].
  split; [|split]; cbn [_residuals _cur_group].
  - destruct groups; [contradiction | discriminate].
  - reflexivity.
  - eapply groups_ok_of; [|exact Hholds].
    clear -Hgroups. induction Hgroups as [| rs groups [Hrs Hnz] _ IH];
      constructor; [|exact IH].
    split; [destruct rs; [contradiction | discriminate]|].
    now apply Forall_normal_norm.
Qed.

Lemma init_str_fresh_witness :
  exists groups : list (list residual),
    parse_sieve_str "4@6 & !1 | 3@2 & 7"
      = Ok (map (fun rs => PList (map of_residual rs)) groups)
    /\ Forall (fun rs => rs <> [] /\ Forall nonzero rs) groups
    /\ [PList [of_residual (4, 2, false); of_residual (1, 0, true)];
        PList [of_residual (3, 2, false); of_residual (7, 0, false)]]
       = [] ++ map (fun rs => PList (map of_residual (map norm_triple rs))) groups
    /\ mkSieve [0; 1]%nat Last = mkSieve (seq (length (@nil pyval)) (length groups)) Last
    /\ groups_of (mkSieve [0; 1]%nat Last)
         [PList [of_residual (4, 2, false); of_residual (1, 0, true)];
          PList [of_residual (3, 2, false); of_residual (7, 0, false)]]
       = (Ret (map (map norm_triple) groups),
          [PList [of_residual (4, 2, false); of_residual (1, 0, true)];
           PList [of_residual (3, 2, false); of_residual (7, 0, false)]])
    /\ sieve_ok
         [PList [of_residual (4, 2, false); of_residual (1, 0, true)];
          PList [of_residual (3, 2, false); of_residual (7, 0, false)]]
         (mkSieve [0; 1]%nat Last).
Proof.
  apply (init_str_fresh "4@6 & !1 | 3@2 & 7" []);
    [reflexivity | vm_compute; reflexivity].
Defined.

(** ** The text of a Sieve builds the Sieve again *)




(** ** Texts with ['&'] and no ['|'] *)

(** X15: an ASCII text whose cleaned form has an ['&'] and no ['|'] never
    builds a Sieve.  When its parts parse, the constructor stores the flat list of
    triples, takes the first triple for a group and raises [TypeError],
    leaving the stored triples behind; when a part does not parse, the
    error of [parse_sieve_str] is raised and the store is as it was. *)
Theorem init_str_and_flat (text : string) (st : store) :
  ascii_text text = true ->
  str_in "|" (clean_sieve_str text) = false ->
  str_in "&" (clean_sieve_str text) = true ->
  match parse_sieve_str text with
  | Ok items =>
      (exists r rs, items = map of_residual (r :: rs))
      /\ Sieve_init (MStr text) None None st = (Exc TypeError, st ++ items)
  | Raise e => Sieve_init (MStr text) None None st = (Exc e, st)
  end.
Proof.
  intros _ Hbar Hand.
  assert (Hparse : parse_sieve_str text
            = mapM parse_residual (str_split "&" (clean_sieve_str text))).
  { unfold parse_sieve_str. cbv zeta. rewrite Hbar. unfold parse_and_str.
    rewrite Hand. reflexivity. }
  unfold Sieve_init.
  destruct (parse_sieve_str text) as [items | e] eqn:Hitems.
  - symmetry in Hparse.
    destruct (mapM_parse_residual_shape _ _ Hparse) as (rs & -> & Hlen).
    destruct rs as [| r rs].
    { exfalso. apply (str_split_not_nil "&" (clean_sieve_str text)).
      apply length_zero_iff_nil. now rewrite <- Hlen. }
    split; [eauto|].
    rewrite (bind_Ret _ _ st (st ++ map of_residual (r :: rs))
               (seq (length st) (length (map of_residual (r :: rs))))).
    2: { rewrite (bind_Ret _ _ st st (map of_residual (r :: rs))) by reflexivity.
         apply alloc_all. }
    cbn [map length seq].
    apply (bind_Exc _ _ _ _ _ (norm_groups_flat st r _ _)).
  - apply bind_Exc. apply bind_Exc. reflexivity.
Qed.

Lemma init_str_and_flat_witness :
  match parse_sieve_str "3@0 & 4@1" with
  | Ok items =>
      (exists r rs, items = map of_residual (r :: rs))
      /\ Sieve_init (MStr "3@0 & 4@1") None None [] = (Exc TypeError, [] ++ items)
  | Raise e => Sieve_init (MStr "3@0 & 4@1") None None [] = (Exc e, [])
  end.
Proof.
  apply (init_str_and_flat "3@0 & 4@1" []); reflexivity.
Defined.

(** ** One residual as a text, as integers and as a tuple *)




(** ** Union and intersection on well-formed Sieves *)

(** X17: for a well-formed [A] and an operand [B] of one group, [A | B]
    returns a Sieve with the groups of [A] followed by one new group that
    holds the residuals of [B]; the store grows by that one cell and
    nothing else changes, so [A] and [B] read as before; the result is
    well-formed. *)
Theorem or_appends_group (st : store) (A B : Sieve) (l : loc)
    (rs : list residual) (groups : list (list residual)) :
  sieve_ok st A -> Forall2 (holds st) (_residuals A) groups ->
  _residuals B = [l] -> holds st l rs -> rs <> [] -> Forall normal rs ->
  let st' := st ++ [PList (map of_residual rs)] in
  let U := mkSieve (_residuals A ++ [length st]) Last in
  Sieve_or A (OSieve B) st = (Ret U, st')
  /\ groups_of U st' = (Ret (groups ++ [rs]), st')
  /\ groups_of A st' = (Ret groups, st')
  /\ holds st' l rs
  /\ sieve_ok st' U.
Proof.
  intros HA Hgroups HB Hl Hne Hnormal st' U.
  assert (Hold : Forall2 (holds st') (_residuals A) groups).
  { eapply Forall2_impl; [exact Hgroups|]. intros l0 rs0. apply holds_alloc. }
  split; [|split; [|split; [|split]]].
  - now apply (Sieve_or_single st A B l rs).
  - apply groups_of_holds. cbn [U _residuals].
    apply Forall2_app; [exact Hold|]. constructor; [|constructor].
    apply lookup_alloc.
  - now apply groups_of_holds.
  - now apply holds_alloc.
  - now apply Sieve_or_single_ok.
Qed.

Lemma or_appends_group_witness :
  let st := [PList [of_residual (3, 0, false)];
             PList [of_residual (4, 1, false); of_residual (5, 2, true)]] in
  let A := mkSieve [0%nat] Last in
  let B := mkSieve [1%nat] Last in
  let rs := [(4, 1, false); (5, 2, true)] in
  let st' := st ++ [PList (map of_residual rs)] in
  let U := mkSieve (_residuals A ++ [length st]) Last in
  Sieve_or A (OSieve B) st = (Ret U, st')
  /\ groups_of U st' = (Ret ([[(3, 0, false)]] ++ [rs]), st')
  /\ groups_of A st' = (Ret [[(3, 0, false)]], st')
  /\ holds st' 1%nat rs
  /\ sieve_ok st' U.
Proof.
  intros st A B rs.
  apply (or_appends_group st A B 1%nat rs [[(3, 0, false)]]).
  - split; [discriminate|]. split; [reflexivity|].
    repeat constructor. exists [(3, 0, false)].
    split; [reflexivity|]. split; [discriminate|].
    repeat constructor; simpl; lia.
  - repeat constructor.
  - reflexivity.
  - reflexivity.
  - discriminate.
  - repeat constructor; simpl; lia.
Defined.

(** X18: [(A | B) & C], for a well-formed [A] and Sieves [B] and [C] of one
    group each, extends the group that the union has just appended, a list
    of its own: the store
    found is a prefix of the store left, so [A], [B] and [C] keep their
    groups, and the result has the groups of [A] followed by the residuals
    of [B] and [C] in one group. *)
Theorem or_then_and_fresh (st : store) (A B C : Sieve) (lb lc : loc)
    (rb rc : list residual) (groups : list (list residual)) :
  sieve_ok st A -> Forall2 (holds st) (_residuals A) groups ->
  _residuals B = [lb] -> holds st lb rb -> rb <> [] -> Forall normal rb ->
  _residuals C = [lc] -> holds st lc rc -> rc <> [] ->
  let st' := st ++ [PList (map of_residual (rb ++ rc))] in
  let R := mkSieve (_residuals A ++ [length st]) Last in
  (U ← Sieve_or A (OSieve B); Sieve_and U (OSieve C)) st = (Ret R, st')
  /\ groups_of R st' = (Ret (groups ++ [rb ++ rc]), st')
  /\ groups_of A st' = (Ret groups, st')
  /\ holds st' lb rb /\ holds st' lc rc.
Proof.
  intros HA Hgroups HB Hlb Hneb Hnb HC Hlc Hnec st' R.
  assert (Hold : Forall2 (holds st') (_residuals A) groups).
  { eapply Forall2_impl; [exact Hgroups|]. intros l0 rs0. apply holds_alloc. }
  split; [|split; [|split; [|split]]].
  - step (Sieve_or_single st A B lb rb HA HB Hlb Hneb).
    rewrite (Sieve_and_single (st ++ [PList (map of_residual rb)])
               (mkSieve (_residuals A ++ [length st]) Last) C
               (length st) lc rb rc).
    + cbn [_residuals]. unfold st', R. f_equal.
      apply (insert_middle st _ _ []).
    + now apply Sieve_or_single_ok.
    + apply last_snoc.
    + apply lookup_alloc.
    + exact HC.
    + now apply holds_alloc.
    + exact Hnec.
  - apply groups_of_holds. cbn [R _residuals].
    apply Forall2_app; [exact Hold|]. constructor; [|constructor].
    apply lookup_alloc.
  - now apply groups_of_holds.
  - now apply holds_alloc.
  - now apply holds_alloc.
Qed.

Lemma or_then_and_fresh_witness :
  let st := [PList [of_residual (3, 0, false)];
             PList [of_residual (4, 1, false)];
             PList [of_residual (5, 2, true)]] in
  let A := mkSieve [0%nat] Last in
  let B := mkSieve [1%nat] Last in
  let C := mkSieve [2%nat] Last in
  let st' := st ++ [PList (map of_residual ([(4, 1, false)] ++ [(5, 2, true)]))] in
  let R := mkSieve (_residuals A ++ [length st]) Last in
  (U ← Sieve_or A (OSieve B); Sieve_and U (OSieve C)) st = (Ret R, st')
  /\ groups_of R st'
     = (Ret ([[(3, 0, false)]] ++ [[(4, 1, false)] ++ [(5, 2, true)]]), st')
  /\ groups_of A st' = (Ret [[(3, 0, false)]], st')
  /\ holds st' 1%nat [(4, 1, false)] /\ holds st' 2%nat [(5, 2, true)].
Proof.
  intros st A B C.
  apply (or_then_and_fresh st A B C 1%nat 2%nat [(4, 1, false)] [(5, 2, true)]
           [[(3, 0, false)]]).
  - split; [discriminate|]. split; [reflexivity|].
    repeat constructor. exists [(3, 0, false)].
    split; [reflexivity|]. split; [discriminate|].
    repeat constructor; simpl; lia.
  - repeat constructor.
  - reflexivity.
  - reflexivity.
  - discriminate.
  - repeat constructor; simpl; lia.
  - reflexivity.
  - reflexivity.
  - discriminate.
Defined.

(** X19: for a well-formed [A] and a Sieve [B] of one group, [A & B]
    allocates nothing and writes one cell, the last group of [A], which
    becomes its residuals followed by those of [B]; every other cell of the
    store is as it was, and the result, which has the group locations of
    [A], is well-formed. *)
Theorem and_writes_last_group (st : store) (A B : Sieve) (la lb : loc)
    (ra rb : list residual) :
  sieve_ok st A -> last (_residuals A) = Some la -> holds st la ra ->
  _residuals B = [lb] -> holds st lb rb -> rb <> [] -> Forall normal rb ->
  let st' := <[la := PList (map of_residual (ra ++ rb))]> st in
  Sieve_and A (OSieve B) st = (Ret (mkSieve (_residuals A) Last), st')
  /\ length st' = length st
  /\ (forall l, l <> la -> st' !! l = st !! l)
  /\ holds st' la (ra ++ rb)
  /\ sieve_ok st' (mkSieve (_residuals A) Last).
Proof.
  intros HA Hlast Hla HB Hlb Hne Hnormal st'.
  split; [|split; [|split; [|split]]].
  - now apply (Sieve_and_single st A B la lb ra rb).
  - apply length_insert.
  - intros l Hl. apply list_lookup_insert_ne. congruence.
  - unfold holds, st'. apply list_lookup_insert_eq.
    apply lookup_lt_is_Some. rewrite Hla. eauto.
  - assert (Hok : sieve_ok st' A).
    { apply Sieve_and_single_ok; try assumption.
      destruct HA as (_ & _ & Hall). rewrite Forall_forall in Hall.
      apply Hall. apply last_Some_elem_of. exact Hlast. }
    destruct Hok as (H1 & H2 & H3). split; [exact H1|]. split; [reflexivity|].
    exact H3.
Qed.

Lemma and_writes_last_group_witness :
  let st := [PList [of_residual (3, 0, false)];
             PList [of_residual (4, 1, false); of_residual (5, 2, true)]] in
  let A := mkSieve [0%nat] Last in
  let B := mkSieve [1%nat] Last in
  let ra := [(3, 0, false)] in
  let rb := [(4, 1, false); (5, 2, true)] in
  let st' := <[0%nat := PList (map of_residual (ra ++ rb))]> st in
  Sieve_and A (OSieve B) st = (Ret (mkSieve (_residuals A) Last), st')
  /\ length st' = length st
  /\ (forall l, l <> 0%nat -> st' !! l = st !! l)
  /\ holds st' 0%nat (ra ++ rb)
  /\ sieve_ok st' (mkSieve (_residuals A) Last).
Proof.
  intros st A B ra rb.
  apply (and_writes_last_group st A B 0%nat 1%nat ra rb).
  - split; [discriminate|]. split; [reflexivity|].
    repeat constructor. exists [(3, 0, false)].
    split; [reflexivity|]. split; [discriminate|].
    repeat constructor; simpl; lia.
  - reflexivity.
  - reflexivity.
  - reflexivity.
  - reflexivity.
  - discriminate.
  - repeat constructor; simpl; lia.
Defined.

(** ** Copies share their groups *)

(** X20: [Sieve(A)] for a well-formed [A] allocates nothing and changes
    nothing: the second normalization leaves every residual as it is, and
    the new Sieve holds the very group lists of [A] (the outer list only is
    copied), so it reads the same groups. *)
Theorem copy_shares_groups (st : store) (A : Sieve)
    (groups : list (list residual)) :
  sieve_ok st A -> Forall2 (holds st) (_residuals A) groups ->
  exists C,
    Sieve_init (MSieve A) None None st = (Ret C, st)
    /\ _residuals C = _residuals A
    /\ groups_of C st = (Ret groups, st)
    /\ sieve_ok st C.
Proof.
  intros HA Hgroups. exists (mkSieve (_residuals A) Last).
  split; [now apply init_copy|]. split; [reflexivity|].
  split; [now apply groups_of_holds|].
  destruct HA as (H1 & _ & H3). split; [exact H1|]. split; [reflexivity | exact H3].
Qed.

Lemma copy_shares_groups_witness :
  let st := [PList [of_residual (3, 0, false)];
             PList [of_residual (4, 1, false); of_residual (5, 2, true)]] in
  let A := mkSieve [0; 1]%nat Last in
  exists C,
    Sieve_init (MSieve A) None None st = (Ret C, st)
    /\ _residuals C = _residuals A
    /\ groups_of C st
       = (Ret [[(3, 0, false)]; [(4, 1, false); (5, 2, true)]], st)
    /\ sieve_ok st C.
Proof.
  intros st A.
  apply (copy_shares_groups st A [[(3, 0, false)]; [(4, 1, false); (5, 2, true)]]).
  - split; [discriminate|]. split; [reflexivity|].
    repeat constructor.
    + exists [(3, 0, false)].
      split; [reflexivity|]. split; [discriminate|].
      repeat constructor; simpl; lia.
    + exists [(4, 1, false); (5, 2, true)].
      split; [reflexivity|]. split; [discriminate|].
      repeat constructor; simpl; lia.
  - repeat constructor.
Defined.

(** ** [simplified] on groups with coprime moduli *)









(** ** The format tag *)

Lemma fmt_setter_option (_fmt new : string) :
  In _fmt fmt_options -> In (fst (fmt_setter _fmt new)) fmt_options.
Proof.
  intros Hcur. unfold fmt_setter.
  destruct (existsb (String.eqb new) fmt_options) eqn:Hnew; [|exact Hcur].
  apply existsb_exists in Hnew. destruct Hnew as (tag & Htag & Heq).
  apply String.eqb_eq in Heq. subst. exact Htag.
Qed.

Lemma fmt_init_option (fmt : option string) :
  In (fst (fmt_init fmt)) fmt_options.
Proof.
  unfold fmt_init. destruct fmt as [new |]; [|left; reflexivity].
  destruct (String.eqb new ""); [left; reflexivity|].
  apply fmt_setter_option. left. reflexivity.
Qed.

(** X22: the format of a Sieve is always one of ['set'], ['unit'], ['bin']
    and ['delta'], whatever is given to the constructor and assigned
    afterwards: an assignment of one of the four is what the getter then
    returns, any other value leaves the format as it was and prints the
    warning that names it, and one line is printed for each value
    refused. *)
Theorem fmt_always_option (fmt : option string) (news : list string) :
  let start := fst (fmt_init fmt) in
  In (fst (fmt_run start news)) fmt_options
  /\ length (snd (fmt_run start news))
     = length (filter (fun new => ~ In new fmt_options) news)
  /\ (forall cur new, In new fmt_options -> fmt_setter cur new = (new, None))
  /\ (forall cur new, ~ In new fmt_options ->
        fmt_setter cur new = (cur, Some (fmt_warning new))).
Proof.
  intros start.
  assert (Hdec : forall new, existsb (String.eqb new) fmt_options = true
                             <-> In new fmt_options).
  { intros new. rewrite existsb_exists. split.
    - intros (tag & Htag & Heq). apply String.eqb_eq in Heq. now subst.
    - intros Hin. exists new. split; [exact Hin | apply String.eqb_refl]. }
  assert (Hyes : forall cur new, In new fmt_options ->
                   fmt_setter cur new = (new, None)).
  { intros cur new Hin. unfold fmt_setter. apply Hdec in Hin. now rewrite Hin. }
  assert (Hno : forall cur new, ~ In new fmt_options ->
                  fmt_setter cur new = (cur, Some (fmt_warning new))).
  { intros cur new Hin. unfold fmt_setter.
    destruct (existsb (String.eqb new) fmt_options) eqn:Hnew; [|reflexivity].
    apply Hdec in Hnew. contradiction. }
  split; [|split; [|split]]; [| |exact Hyes|exact Hno].
  - pose proof (fmt_init_option fmt) as Hstart. fold start in Hstart.
    clearbody start. revert start Hstart.
    induction news as [| new rest IH]; intros start Hstart; [exact Hstart|].
    cbn [fmt_run]. pose proof (fmt_setter_option start new Hstart) as Hnext.
    destruct (fmt_setter start new) as [cur line]. cbn [fst] in Hnext.
    specialize (IH cur Hnext). destruct (fmt_run cur rest) as [final lines].
    exact IH.
  - clearbody start. revert start.
    induction news as [| new rest IH]; intros start; [reflexivity|].
    cbn [fmt_run]. destruct (decide (In new fmt_options)) as [Hin | Hin].
    + rewrite (Hyes start new Hin). specialize (IH new).
      destruct (fmt_run new rest) as [final lines]. cbn [snd] in *.
      rewrite filter_cons_False by tauto. exact IH.
    + rewrite (Hno start new Hin). specialize (IH start).
      destruct (fmt_run start rest) as [final lines]. cbn [snd length] in *.
      rewrite filter_cons_True by assumption. cbn [length]. now rewrite IH.
Qed.

(** ** The errors of the parser *)







(** ** A union as the right operand *)

(** X24: the Sieve that [A | B] returns has two groups or more, so its
    [stype] is ['complex'] and it cannot be a right operand: for
    well-formed [A] and [C] and a Sieve [B] of one group, both
    [C | (A | B)] and [C & (A | B)] raise [UnboundLocalError], after the
    inner union has added its one cell to the store. *)
Theorem union_not_right_operand (st : store) (A B C : Sieve) (l : loc)
    (rs : list residual) :
  sieve_ok st A -> sieve_ok st C ->
  _residuals B = [l] -> holds st l rs -> rs <> [] ->
  let st' := st ++ [PList (map of_residual rs)] in
  (U ← Sieve_or A (OSieve B); stype U) st = (Ret Complex, st')
  /\ (U ← Sieve_or A (OSieve B); Sieve_or C (OSieve U)) st
     = (Exc UnboundLocalError, st')
  /\ (U ← Sieve_or A (OSieve B); Sieve_and C (OSieve U)) st
     = (Exc UnboundLocalError, st').
Proof.
  intros HA HC HB Hl Hne st'.
  pose proof (Sieve_or_single st A B l rs HA HB Hl Hne) as Hor.
  set (U := mkSieve (_residuals A ++ [length st]) Last) in Hor.
  assert (Hlen : (1 < length (_residuals U))%nat).
  { cbn [U _residuals]. rewrite length_app. cbn [length].
    destruct HA as (HneA & _). destruct (_residuals A); [contradiction|].
    cbn [length]. lia. }
  pose proof (sieve_ok_alloc st (PList (map of_residual rs)) C HC) as HC'.
  fold st' in Hor, HC'.
  assert (Hpush : forall k : Sieve -> option (list pyval) -> M Sieve,
    (other ← operand_sieve (OSieve U); push ← push_of other; k other push) st'
      = k U None st').
  { intros k. rewrite (bind_Ret _ _ st' st' U) by reflexivity.
    step (push_of_complex U st' Hlen). reflexivity. }
  split; [|split].
  - step Hor. now apply stype_complex.
  - step Hor. unfold Sieve_or. rewrite Hpush.
    step (init_copy st' C HC'). reflexivity.
  - step Hor. unfold Sieve_and. rewrite Hpush.
    step (init_copy st' C HC').
    destruct (group_at_last st' C HC') as (lc & Hat & _ & rc & Hlc & _ & _).
    cbn [_residuals]. step Hat.
    step (read_some _ _ _ Hlc). reflexivity.
Qed.

Lemma union_not_right_operand_witness :
  let st := [PList [of_residual (3, 0, false)];
             PList [of_residual (4, 1, false)];
             PList [of_residual (5, 2, true)]] in
  let A := mkSieve [0%nat] Last in
  let B := mkSieve [1%nat] Last in
  let C := mkSieve [2%nat] Last in
  let st' := st ++ [PList (map of_residual [(4, 1, false)])] in
  (U ← Sieve_or A (OSieve B); stype U) st = (Ret Complex, st')
  /\ (U ← Sieve_or A (OSieve B); Sieve_or C (OSieve U)) st
     = (Exc UnboundLocalError, st')
  /\ (U ← Sieve_or A (OSieve B); Sieve_and C (OSieve U)) st
     = (Exc UnboundLocalError, st').
Proof.
  intros st A B C.
  apply (union_not_right_operand st A B C 1%nat [(4, 1, false)]).
  - split; [discriminate|]. split; [reflexivity|].
    repeat constructor. exists [(3, 0, false)].
    split; [reflexivity|]. split; [discriminate|].
    repeat constructor; simpl; lia.
  - split; [discriminate|]. split; [reflexivity|].
    repeat constructor. exists [(5, 2, true)].
    split; [reflexivity|]. split; [discriminate|].
    repeat constructor; simpl; lia.
  - reflexivity.
  - reflexivity.
  - discriminate.
Defined.
